(** * Data source resolution cache (package resolver): [dsCache.check] and
    [dsCache.getDS]

    A shallow embedding of the per-organisation data source cache and the
    properties of its refresh ([check]) and lookup ([getDS]) operations.

    Modelling choices, all read off the Go source:
    - [map[int64]map[string]*dsVal] is a [gmap Z (gmap string dsVal)]; the
      field [cache] of the receiver can be the nil map, hence an [option].
      Every pointer stored in an index is non-nil and the pointee is never
      written after it is stored, so a [*dsVal] is modelled by its value and
      [orgDSCache[k] == nil] by [orgDSCache !! k = None].
    - [time.Time] is an instant in nanoseconds ([Z]); [Before] is [<] and
      [!=] is disequality of instants.
    - a Go [error] is a message; the nil error is [None].
    - [for _, ds := range orgDSCache] produces the values of the map in an
      order the language leaves open, so the sequence of values it produces
      is supplied by the environment ([rangeOrder]).
    - [c.mu.Lock()] is the one point where other callers can run: what they
      do to the shared cache meanwhile is supplied by the environment
      ([whileWaiting]); the identity is the single-caller execution. *)

From Stdlib Require Import ZArith DecimalString DecimalPos.
From stdpp Require Import gmap strings list fin_maps.

Local Open Scope Z_scope.
Local Open Scope string_scope.

(** ** Data model *)

Definition error := string.

(** The cached descriptor, [type dsVal struct]. *)
Record dsVal := {
  InternalID : Z;
  IsDefault : bool;
  Name : string;
  Type_ : string;
  UID : string;
  PluginExists : bool
}.

(** Modelled from the spec: the catalog record [datasources.DataSource] is
    declared outside the sources at hand; these are the fields [check] reads
    ("sequence of {orgID, uid, name, type, internalID, isDefault}"). *)
Record DataSource := {
  ds_Id : Z;
  ds_OrgId : Z;
  ds_Name : string;
  ds_Uid : string;
  ds_Type : string;
  ds_IsDefault : bool
}.

(** The receiver [dsCache]: the published snapshot and its time stamp. The
    collaborators [ds] and [pluginRegistry] are part of the [World]. *)
Record dsCache := {
  cache : option (gmap Z (gmap string dsVal));
  timestamp : Z
}.

(** What the rest of the process supplies during one call. *)
Record World := {
  (** result of [c.ds.GetAllDataSources(ctx, q)]: the error, or [q.Result] *)
  GetAllDataSources : error + list DataSource;
  (** second component of [c.pluginRegistry.Plugin(ctx, type)] *)
  Plugin : string → bool;
  (** values produced by [range] over the index of an organisation *)
  rangeOrder : Z → gmap string dsVal → list dsVal;
  (** writes of other callers between entering [check] and holding [mu] *)
  whileWaiting : dsCache → dsCache;
  (** [getNow()] as read by [getDS] *)
  nowAtResolve : Z;
  (** [getNow()] as read by [check] when it publishes *)
  nowAtPublish : Z
}.

Record checkResult := {
  chk_state : dsCache;
  chk_err : option error;
  chk_queries : nat          (* calls of GetAllDataSources *)
}.

Record getDSResult := {
  res_state : dsCache;
  res_ds : option dsVal;     (* the returned *dsVal, None for nil *)
  res_err : option error;
  res_checks : nat;          (* calls of check *)
  res_queries : nat          (* calls of GetAllDataSources *)
}.

(** [time.Minute], in nanoseconds. *)
Definition Minute : Z := 60000000000.

(** [fmt.Sprintf("%d", id)]. *)
Definition Sprintf_d (id : Z) : string := NilZero.string_of_int (Z.to_int id).

(** ** The refresh, [dsCache.check] *)

(** [val := &dsVal{...}; val.PluginExists = ok] *)
Definition newVal (plugin : string → bool) (ds : DataSource) : dsVal :=
  {| InternalID := ds_Id ds;
     Name := ds_Name ds;
     UID := ds_Uid ds;
     Type_ := ds_Type ds;
     IsDefault := ds_IsDefault ds;
     PluginExists := plugin (ds_Type ds) |}.

(** Body of the first loop, [for _, ds := range q.Result]: the state is the
    pair of the locals [cache] and [defaultDS]. *)
Definition filePrimary (plugin : string → bool)
    (st : gmap Z (gmap string dsVal) * gmap Z dsVal) (ds : DataSource)
    : gmap Z (gmap string dsVal) * gmap Z dsVal :=
  let val := newVal plugin ds in
  let orgCache := default ∅ (st.1 !! ds_OrgId ds) in
  (<[ds_OrgId ds := <[UID val := val]> orgCache]> st.1,
   if IsDefault val then <[ds_OrgId ds := val]> st.2 else st.2).

(** [_, ok := m[k]; if !ok { m[k] = ds }] *)
Definition fileIfAbsent (k : string) (ds : dsVal) (m : gmap string dsVal)
    : gmap string dsVal :=
  match m !! k with
  | Some _ => m
  | None => <[k := ds]> m
  end.

(** Body of the inner loop, [for _, ds := range orgDSCache]. *)
Definition fileSecondary (orgDSCache : gmap string dsVal) (ds : dsVal)
    : gmap string dsVal :=
  let id := Sprintf_d (InternalID ds) in
  fileIfAbsent (Name ds) ds (fileIfAbsent id ds orgDSCache).

(** The first loop run over the whole of [q.Result], from the two fresh
    maps. *)
Definition primaryPass (plugin : string → bool) (result : list DataSource)
    : gmap Z (gmap string dsVal) * gmap Z dsVal :=
  foldl (filePrimary plugin) (∅, ∅) result.

Section Resolver.

(** [grafanads.DatasourceUID], a constant declared outside the sources at
    hand. *)
Variable DatasourceUID : string.

(** [gds := &dsVal{Name: ..., UID: ..., Type: ..., PluginExists: true}] *)
Definition gds : dsVal :=
  {| InternalID := 0;
     IsDefault := false;
     Name := DatasourceUID;
     Type_ := DatasourceUID;
     UID := DatasourceUID;
     PluginExists := true |}.

(** Body of the second loop, [for orgID, orgDSCache := range cache], given
    the values [visit] that the inner [range] produces. *)
Definition indexOrg (defaultDS : gmap Z dsVal) (visit : list dsVal)
    (orgID : Z) (orgDSCache : gmap string dsVal) : gmap string dsVal :=
  let m := foldl fileSecondary orgDSCache visit in
  let m := <[UID gds := gds]> m in
  let ds := default gds (defaultDS !! orgID) in
  let m := <["" := ds]> m in
  match m !! "default" with
  | None => <["default" := ds]> m
  | Some _ => m
  end.

(** Both loops: the map that [check] publishes for the catalog [result].
    The iterations of the outer loop touch one organisation each, so their
    order is immaterial. *)
Definition buildCache (plugin : string → bool)
    (order : Z → gmap string dsVal → list dsVal) (result : list DataSource)
    : gmap Z (gmap string dsVal) :=
  let st := primaryPass plugin result in
  map_imap (λ orgID orgDSCache,
              Some (indexOrg st.2 (order orgID orgDSCache) orgID orgDSCache))
           st.1.

Definition check (w : World) (c : dsCache) : checkResult :=
  let old := timestamp c in
  let c := whileWaiting w c in                        (* c.mu.Lock() *)
  if bool_decide (timestamp c ≠ old) then
    {| chk_state := c; chk_err := None; chk_queries := 0 |}
  else
    match GetAllDataSources w with
    | inl err => {| chk_state := c; chk_err := Some err; chk_queries := 1 |}
    | inr result =>
        {| chk_state :=
             {| cache := Some (buildCache (Plugin w) (rangeOrder w) result);
                timestamp := nowAtPublish w |};
           chk_err := None;
           chk_queries := 1 |}
    end.

(** ** The lookup, [dsCache.getDS] *)

(** [c.cache == nil || c.timestamp.Before(getNow().Add(time.Minute*-1))] *)
Definition stale (c : dsCache) (now : Z) : bool :=
  match cache c with
  | None => true
  | Some _ => bool_decide (timestamp c < now + Minute * -1)
  end.

(** The two map reads at the end of [getDS]; reading the nil map finds
    nothing. *)
Definition lookupDS (c : dsCache) (orgID : Z) (uid : string) : option dsVal :=
  match cache c with
  | None => None
  | Some m =>
      match m !! orgID with
      | None => None                                   (* org not found *)
      | Some v => v !! uid                             (* nil when absent *)
      end
  end.

(** [orgID] is [store.UserFromContext(ctx).OrgID]. *)
Definition getDS (w : World) (c : dsCache) (orgID : Z) (uid : string)
    : getDSResult :=
  if stale c (nowAtResolve w) then
    let r := check w c in
    {| res_state := chk_state r;
       res_ds := lookupDS (chk_state r) orgID uid;
       res_err := chk_err r;
       res_checks := 1;
       res_queries := chk_queries r |}
  else
    {| res_state := c;
       res_ds := lookupDS c orgID uid;
       res_err := None;
       res_checks := 0;
       res_queries := 0 |}.

End Resolver.

(** ** Vocabulary of the statements *)

(** What Go allows [range] to produce over an index that the loop body
    extends: every entry present at the start once, in any order, and any
    entry filed meanwhile at most once. The body files the value it is
    visiting, so the values produced are exactly those of the index at the
    start; repetitions are allowed here, which covers the revisits. *)
Definition goRange (order : Z → gmap string dsVal → list dsVal) : Prop :=
  ∀ (orgID : Z) (m : gmap string dsVal) (v : dsVal),
    v ∈ order orgID m ↔ ∃ k, m !! k = Some v.

(** This call of [getDS] runs [check], no other caller publishes while it
    waits for the mutex, and the catalog answers [result]. *)
Definition refreshesWith (w : World) (c : dsCache) (result : list DataSource)
    : Prop :=
  stale c (nowAtResolve w) = true ∧
  timestamp (whileWaiting w c) = timestamp c ∧
  GetAllDataSources w = inr result.

(** The catalog record that [defaultDS[orgID]] ends up holding: the last
    one of the organisation that is marked default. *)
Definition defaultRecord (orgID : Z) (result : list DataSource)
    : option DataSource :=
  last (filter (λ r, ds_OrgId r = orgID ∧ ds_IsDefault r = true) result).

(** The secondary keys of a record: its internal id in decimal and its
    name. *)
Definition recordKeys (r : DataSource) : list string :=
  [Sprintf_d (ds_Id r); ds_Name r].

(** No two records of one organisation with different uids compete for a
    secondary key. *)
Definition collisionFree (result : list DataSource) : Prop :=
  ∀ (r1 r2 : DataSource) (k : string),
    r1 ∈ result → r2 ∈ result → ds_OrgId r1 = ds_OrgId r2 →
    k ∈ recordKeys r1 → k ∈ recordKeys r2 → ds_Uid r1 = ds_Uid r2.

(** The catalog record that [cache[orgID][uid]] holds after the first
    loop: the last one of the organisation with that uid. *)
Definition lastRecord (orgID : Z) (uid : string) (result : list DataSource)
    : option DataSource :=
  last (filter (λ r, ds_OrgId r = orgID ∧ ds_Uid r = uid) result).

(** The three identifiers a record can be looked up by. *)
Definition identifiers (r : DataSource) : list string :=
  [ds_Uid r; Sprintf_d (ds_Id r); ds_Name r].

(** No identifier is shared by two different records of one
    organisation. *)
Definition unambiguous (result : list DataSource) : Prop :=
  ∀ (r1 r2 : DataSource) (k : string),
    r1 ∈ result → r2 ∈ result → ds_OrgId r1 = ds_OrgId r2 →
    k ∈ identifiers r1 → k ∈ identifiers r2 → r1 = r2.

(** ** Sample catalogs, worlds and cache states *)

(** The order in which stdpp lists a map: one of the orders [range] may
    take. *)
Definition listedOrder (_ : Z) (m : gmap string dsVal) : list dsVal :=
  (map_to_list m).*2.

Definition reversedOrder (_ : Z) (m : gmap string dsVal) : list dsVal :=
  reverse (map_to_list m).*2.

Definition prometheus : DataSource :=
  {| ds_Id := 7; ds_OrgId := 1; ds_Name := "Prometheus"; ds_Uid := "abc";
     ds_Type := "prometheus"; ds_IsDefault := true |}.

(** A record that is not the default and is named ["default"]. *)
Definition namedDefault : DataSource :=
  {| ds_Id := 8; ds_OrgId := 1; ds_Name := "default"; ds_Uid := "xyz";
     ds_Type := "loki"; ds_IsDefault := false |}.

(** Two records of one organisation with the same name. *)
Definition dbA : DataSource :=
  {| ds_Id := 1; ds_OrgId := 1; ds_Name := "db"; ds_Uid := "a";
     ds_Type := "prometheus"; ds_IsDefault := false |}.

Definition dbB : DataSource :=
  {| ds_Id := 2; ds_OrgId := 1; ds_Name := "db"; ds_Uid := "b";
     ds_Type := "loki"; ds_IsDefault := false |}.

Definition hasPrometheus (type : string) : bool :=
  bool_decide (type = "prometheus").

(** A single caller, a catalog that answers [result]. *)
Definition worldOf (result : error + list DataSource)
    (order : Z → gmap string dsVal → list dsVal) (now : Z) : World :=
  {| GetAllDataSources := result;
     Plugin := hasPrometheus;
     rangeOrder := order;
     whileWaiting := λ c, c;
     nowAtResolve := now;
     nowAtPublish := now |}.

(** Another caller publishes a snapshot while this one waits for [mu]. *)
Definition publishedMeanwhile (c : dsCache) : dsCache :=
  {| cache := Some ∅; timestamp := timestamp c + 1 |}.

Definition contendedWorld (now : Z) : World :=
  {| GetAllDataSources := inr [prometheus];
     Plugin := hasPrometheus;
     rangeOrder := listedOrder;
     whileWaiting := publishedMeanwhile;
     nowAtResolve := now;
     nowAtPublish := now |}.

Definition coldStart : dsCache := {| cache := None; timestamp := 0 |}.

(** The snapshot of the catalog [[prometheus]], built at instant 1000. *)
Definition warm : dsCache :=
  chk_state (check "grafana" (worldOf (inr [prometheus]) listedOrder 1000) coldStart).

(** * Leaked token check (package leakcheck): [filterCheckableTokens] and
    [Service.CheckTokens]

    The service talks to three collaborators (the token store, the leak
    check client, the webhook client) and a logger. A run is modelled by the
    sequence of calls it makes, in order, and by how it ends: it returns an
    error or nil, or it panics on a nil pointer. What the collaborators
    answer is supplied by the environment. Log calls are recorded with their
    level and message; evaluating their arguments can panic and is
    modelled. *)

Module leakcheck.

(** The fields of [apikey.APIKey] that the service reads; the struct is
    declared outside the sources at hand. A nil pointer is [None]. *)
Record APIKey := {
  Id : Z;
  OrgId : Z;
  Name : string;
  Key : string;
  Expires : option Z;
  IsRevoked : option bool;
  ServiceAccountId : option Z
}.

(** [apikey.APIKey{}], what reading a missing key of [hashMap] gives. *)
Definition zeroAPIKey : APIKey :=
  {| Id := 0; OrgId := 0; Name := ""; Key := ""; Expires := None;
     IsRevoked := None; ServiceAccountId := None |}.

(** The fields of [Token] that the service reads; the struct is declared in
    a file of the package that is not at hand. *)
Record Token := {
  Hash : string;
  URL : string;
  ReportedAt : string
}.

(** The two flags of [Service]; its collaborators are in the [World]. *)
Record Service := {
  webHookNotify : bool;
  revoke : bool
}.

(** What the collaborators answer during one call of [CheckTokens]. The
    answers of the store and of the webhook may depend on how many leaked
    tokens were handled before. *)
Record World := {
  (** [s.store.ListTokens(ctx, query)] *)
  ListTokens : error + list APIKey;
  (** [s.client.CheckTokens(ctx, keyHashes)] *)
  ClientCheckTokens : list string → error + list Token;
  (** [s.store.RevokeServiceAccountToken(ctx, orgID, serviceAccountID,
      tokenID)] while handling the leaked token number [n] *)
  RevokeServiceAccountToken : nat → Z → Z → Z → option error;
  (** [s.webHookClient.Notify(ctx, token, tokenName, revoked)] while
      handling the leaked token number [n] *)
  Notify : nat → Token → string → bool → option error;
  (** the instant at which [time.Now()] is read while the listed token
      number [n] is examined, in nanoseconds since 1 January 1970 *)
  Now : nat → Z
}.

Inductive Event :=
  | CallListTokens
  | CallCheckTokens (keyHashes : list string)
  | CallRevoke (orgID serviceAccountID tokenID : Z)
  | CallNotify (token : Token) (tokenName : string) (revoked : bool)
  | CallLog (level msg : string).

(** A computation that makes calls and then yields a value, or panics
    ([None]) after the calls made so far. *)
Definition Run (A : Type) : Type := list Event * option A.

#[global] Instance Run_ret : MRet Run := λ A a, ([], Some a).

#[global] Instance Run_bind : MBind Run := λ A B f x,
  match x.2 with
  | None => (x.1, None)
  | Some a => ((x.1 ++ (f a).1)%list, (f a).2)
  end.

Definition call (e : Event) : Run unit := ([e], Some tt).

(** [*p]: a nil pointer dereference panics. *)
Definition deref {A : Type} (p : option A) : Run A := ([], p).

(** An [int64] computed in [Z]: the result of an addition wraps around. *)
Definition wrap64 (z : Z) : Z :=
  (z + 9223372036854775808) `mod` 18446744073709551616 - 9223372036854775808.

(** [unixToInternal] of package time: the seconds from 1 January of year 1
    to 1 January 1970. *)
Definition unixToInternal : Z := 62135596800.

(** What [Before] reads of a [time.Time]: [t.sec()], the seconds since
    1 January of year 1 as an [int64], and [t.nsec()]. *)
Definition Time : Type := Z * Z.

(** [time.Unix(sec, 0)]: the field [ext] is [sec + unixToInternal], an
    [int64] addition; the nanoseconds are 0. *)
Definition Unix (sec : Z) : Time := (wrap64 (sec + unixToInternal), 0).

(** The [time.Time] that [time.Now()] returns at the instant [now], given in
    nanoseconds since 1 January 1970. *)
Definition timeAt (now : Z) : Time :=
  (now `div` 1000000000 + unixToInternal, now `mod` 1000000000).

(** [t.Before(u)], for a [t] made by [time.Unix]:
    [ts < us || ts == us && t.nsec() < u.nsec()]. *)
Definition Before (t u : Time) : bool :=
  bool_decide (t.1 < u.1 ∨ (t.1 = u.1 ∧ t.2 < u.2)).

(** [hasExpired], given the instant [now] at which it reads [time.Now()]. *)
Definition hasExpired (now : Z) (expiration : option Z) : bool :=
  match expiration with
  | None => false
  | Some e => Before (Unix e) (timeAt now)
  end.

(** [token.IsRevoked != nil && *token.IsRevoked] *)
Definition isRevoked (token : APIKey) : bool :=
  match IsRevoked token with
  | None => false
  | Some b => b
  end.

(** The loop of [filterCheckableTokens] from the listed token number [n]
    on; [acc] holds [hashes] and [hashMap]. *)
Fixpoint filterFrom (now : nat → Z) (n : nat) (tokens : list APIKey)
    (acc : list string * gmap string APIKey)
    : list string * gmap string APIKey :=
  match tokens with
  | [] => acc
  | token :: rest =>
      if hasExpired (now n) (Expires token) || isRevoked token then
        filterFrom now (S n) rest acc
      else
        filterFrom now (S n) rest
          ((acc.1 ++ [Key token])%list, <[Key token := token]> acc.2)
  end.

Definition filterCheckableTokens (now : nat → Z) (tokens : list APIKey)
    : list string * gmap string APIKey :=
  filterFrom now 0 tokens ([], ∅).

(** [fmt.Errorf(prefix + ": %w", err)], as a message. *)
Definition wrap (prefix : string) (err : error) : error :=
  prefix +:+ ": " +:+ err.

(** The body of the loop over the leaked tokens, for the leaked token number
    [n]. *)
Definition handleLeaked (s : Service) (w : World)
    (hashMap : gmap string APIKey) (n : nat) (leakcheckToken : Token)
    : Run unit :=
  let leakedToken := default zeroAPIKey (hashMap !! Hash leakcheckToken) in
  (if revoke s then
     sa ← deref (ServiceAccountId leakedToken);
     call (CallRevoke (OrgId leakedToken) sa (Id leakedToken));;
     match RevokeServiceAccountToken w n (OrgId leakedToken) sa (Id leakedToken) with
     | Some _ =>
         deref (ServiceAccountId leakedToken);;
         call (CallLog "error" "failed to delete leaked token. Revoke manually.")
     | None => mret tt
     end
   else mret tt);;
  (if webHookNotify s then
     call (CallNotify leakcheckToken (Name leakedToken) (revoke s));;
     match Notify w n leakcheckToken (Name leakedToken) (revoke s) with
     | Some _ => call (CallLog "warn" "failed to call token leak webhook")
     | None => mret tt
     end
   else mret tt);;
  deref (ServiceAccountId leakedToken);;
  call (CallLog "warn" "found leaked token").

(** The loop over [leakcheckTokens] from the leaked token number [n] on. *)
Fixpoint handleAll (s : Service) (w : World) (hashMap : gmap string APIKey)
    (n : nat) (leakcheckTokens : list Token) : Run unit :=
  match leakcheckTokens with
  | [] => mret tt
  | leakcheckToken :: rest =>
      handleLeaked s w hashMap n leakcheckToken;;
      handleAll s w hashMap (S n) rest
  end.

(** [RetrieveActiveTokens]: the listed tokens, or the wrapped error. *)
Definition RetrieveActiveTokens (w : World) : Run (error + list APIKey) :=
  call CallListTokens;;
  match ListTokens w with
  | inl err => mret (inl (wrap "failed to retrieve service account tokens" err))
  | inr saTokens => mret (inr saTokens)
  end.

(** [CheckTokens]: the calls made, and the returned error ([Some None] is
    the nil error) or a panic ([None]). *)
Definition CheckTokens (s : Service) (w : World) : Run (option error) :=
  r ← RetrieveActiveTokens w;
  match r with
  | inl err => mret (Some (wrap "failed to retrieve tokens for checking" err))
  | inr tokens =>
      let '(hashes, hashMap) := filterCheckableTokens (Now w) tokens in
      if bool_decide (length hashes = 0%nat) then
        call (CallLog "debug" "no active tokens to check");;
        mret None
      else
        call (CallCheckTokens hashes);;
        match ClientCheckTokens w hashes with
        | inl err => mret (Some (wrap "failed to check tokens" err))
        | inr leakcheckTokens =>
            handleAll s w hashMap 0 leakcheckTokens;;
            mret None
        end
  end.

End leakcheck.

(** ** Vocabulary and samples for the leaked token check *)

(** The hashes and the map that [CheckTokens] works with for the listed
    [tokens]. *)
Definition leakcheck_hashes (w : leakcheck.World)
    (tokens : list leakcheck.APIKey) : list string :=
  (leakcheck.filterCheckableTokens (leakcheck.Now w) tokens).1.

Definition leakcheck_hashMap (w : leakcheck.World)
    (tokens : list leakcheck.APIKey) : gmap string leakcheck.APIKey :=
  (leakcheck.filterCheckableTokens (leakcheck.Now w) tokens).2.

(** The store calls among the calls of a run. *)
Definition isRevokeCall (e : leakcheck.Event) : bool :=
  match e with
  | leakcheck.CallRevoke _ _ _ => true
  | _ => false
  end.

Definition isNotifyCall (e : leakcheck.Event) : bool :=
  match e with
  | leakcheck.CallNotify _ _ _ => true
  | _ => false
  end.

(** The store call that revoking the token of a reported hash amounts to,
    one per leaked token whose hash is a key of [hashMap] and whose token
    has a service account. *)
Definition revokeCalls (hashMap : gmap string leakcheck.APIKey)
    (leaked : list leakcheck.Token) : list leakcheck.Event :=
  leaked ≫= λ tk,
    match hashMap !! leakcheck.Hash tk with
    | Some t =>
        match leakcheck.ServiceAccountId t with
        | Some sa => [leakcheck.CallRevoke (leakcheck.OrgId t) sa (leakcheck.Id t)]
        | None => []
        end
    | None => []
    end.

(** The webhook call made for each leaked token. *)
Definition notifyCalls (s : leakcheck.Service)
    (hashMap : gmap string leakcheck.APIKey) (leaked : list leakcheck.Token)
    : list leakcheck.Event :=
  (λ tk, leakcheck.CallNotify tk
           (leakcheck.Name (default leakcheck.zeroAPIKey
                              (hashMap !! leakcheck.Hash tk)))
           (leakcheck.revoke s)) <$> leaked.

(** A token that [filterCheckableTokens] keeps at the instant [now]
    (nanoseconds since 1970): it is not revoked, and it has no expiry date,
    or its expiry second does not overflow when [time.Unix] moves it to the
    epoch of year 1 and is not before [now]. *)
Definition liveAt (now : Z) (t : leakcheck.APIKey) : Prop :=
  (leakcheck.IsRevoked t = None ∨ leakcheck.IsRevoked t = Some false) ∧
  match leakcheck.Expires t with
  | None => True
  | Some e => (e ≤ 9223371974719179007 ∧ now ≤ e * 1000000000)%Z
  end.

Definition liveToken : leakcheck.APIKey :=
  {| leakcheck.Id := 1; leakcheck.OrgId := 1; leakcheck.Name := "ci";
     leakcheck.Key := "h1"; leakcheck.Expires := None;
     leakcheck.IsRevoked := None; leakcheck.ServiceAccountId := Some 10 |}.

(** Expired at second 5. *)
Definition expiredToken : leakcheck.APIKey :=
  {| leakcheck.Id := 2; leakcheck.OrgId := 1; leakcheck.Name := "old";
     leakcheck.Key := "h2"; leakcheck.Expires := Some 5;
     leakcheck.IsRevoked := Some false; leakcheck.ServiceAccountId := Some 11 |}.

(** Expires at the last second an [int64] can hold. *)
Definition farFutureToken : leakcheck.APIKey :=
  {| leakcheck.Id := 4; leakcheck.OrgId := 1; leakcheck.Name := "forever";
     leakcheck.Key := "h4"; leakcheck.Expires := Some 9223372036854775807;
     leakcheck.IsRevoked := None; leakcheck.ServiceAccountId := Some 20 |}.

(** A token with the key of [liveToken] and the same far expiry. *)
Definition farFutureTwin : leakcheck.APIKey :=
  {| leakcheck.Id := 2; leakcheck.OrgId := 1; leakcheck.Name := "twin";
     leakcheck.Key := "h1"; leakcheck.Expires := Some 9223372036854775807;
     leakcheck.IsRevoked := None; leakcheck.ServiceAccountId := Some 20 |}.

Definition revokedToken : leakcheck.APIKey :=
  {| leakcheck.Id := 3; leakcheck.OrgId := 2; leakcheck.Name := "gone";
     leakcheck.Key := "h3"; leakcheck.Expires := None;
     leakcheck.IsRevoked := Some true; leakcheck.ServiceAccountId := Some 12 |}.

Definition leakOf (hash : string) : leakcheck.Token :=
  {| leakcheck.Hash := hash; leakcheck.URL := "https://example.org/leak";
     leakcheck.ReportedAt := "2023-01-01" |}.

(** A world at second 6 whose store lists [tokens], whose client reports
    [leaked], and whose store and webhook fail on every call. *)
Definition leakWorld (tokens : error + list leakcheck.APIKey)
    (leaked : error + list leakcheck.Token) : leakcheck.World :=
  {| leakcheck.ListTokens := tokens;
     leakcheck.ClientCheckTokens := λ _, leaked;
     leakcheck.RevokeServiceAccountToken := λ _ _ _ _, Some "store down";
     leakcheck.Notify := λ _ _ _ _, Some "webhook down";
     leakcheck.Now := λ _, 6000000000 |}.

Definition revoking : leakcheck.Service :=
  {| leakcheck.webHookNotify := true; leakcheck.revoke := true |}.

Definition reporting : leakcheck.Service :=
  {| leakcheck.webHookNotify := true; leakcheck.revoke := false |}.

(** * Fixed roles (package accesscontrol): [ConcatPermissions]

    A slice is a list or nil ([None]); the type [Permission] is declared
    outside the sources at hand and is a parameter. *)

Module accesscontrol.

(** [ConcatPermissions(permissions ...[]Permission)]. The slice [pCopy] that
    the loop makes has length 0, so [copy] writes nothing to it, and it is
    not used afterwards. *)
Definition ConcatPermissions {Permission : Type}
    (permissions : option (list (option (list Permission))))
    : option (list Permission) :=
  match permissions with
  | None => None
  | Some ps => Some (foldl (λ perms p, perms ++ default [] p)%list [] ps)
  end.

End accesscontrol.

(** ** Properties of [check] and [getDS] that do not depend on the catalog
    contents *)

Section Protocol.

Variable DatasourceUID : string.

Lemma stale_spec (c : dsCache) (now : Z) :
  stale c now = true ↔ cache c = None ∨ timestamp c < now - Minute.
Proof.
  unfold stale. destruct (cache c) as [m|].
  - rewrite bool_decide_eq_true. split.
    + intros H. right. lia.
    + intros [H|H]; [discriminate | lia].
  - split; [by left | done].
Qed.

Lemma check_guard_passes (w : World) (c : dsCache) :
  timestamp (whileWaiting w c) = timestamp c →
  check DatasourceUID w c =
    match GetAllDataSources w with
    | inl err =>
        {| chk_state := whileWaiting w c; chk_err := Some err; chk_queries := 1 |}
    | inr result =>
        {| chk_state :=
             {| cache := Some (buildCache DatasourceUID (Plugin w) (rangeOrder w) result);
                timestamp := nowAtPublish w |};
           chk_err := None;
           chk_queries := 1 |}
    end.
Proof.
  intros Hts. unfold check. rewrite bool_decide_eq_false_2; [done | ].
  intros Hne. by apply Hne.
Qed.

(** The error of [check] is the catalog's error or nil. *)
Lemma check_err_from_catalog (w : World) (c : dsCache) (e : error) :
  chk_err (check DatasourceUID w c) = Some e → GetAllDataSources w = inl e.
Proof.
  unfold check. case_bool_decide; [done | ].
  destruct (GetAllDataSources w) as [e'|result]; simpl; congruence.
Qed.

(** What [getDS] returns is read from the state it leaves behind. *)
Lemma getDS_serves_state (w : World) (c : dsCache) (orgID : Z) (uid : string) :
  res_ds (getDS DatasourceUID w c orgID uid) =
  lookupDS (res_state (getDS DatasourceUID w c orgID uid)) orgID uid.
Proof. unfold getDS. by destruct (stale c (nowAtResolve w)). Qed.

(** C7: [check] reads [timestamp] before it asks for the mutex and again
    once it holds it; when the two readings differ it returns nil at once,
    without a catalog query, and the cache and time stamp stay as the other
    caller left them. *)
Theorem check_skips_when_already_updated (w : World) (c : dsCache) :
  timestamp (whileWaiting w c) ≠ timestamp c →
  check DatasourceUID w c =
    {| chk_state := whileWaiting w c; chk_err := None; chk_queries := 0 |}.
Proof.
  intros Hne. unfold check. by rewrite bool_decide_eq_true_2.
Qed.

(** C3: when the catalog query fails with [e], [check] returns [e] and
    writes neither the cache nor the time stamp; a [getDS] whose refresh
    fails that way leaves the state as it was and answers from the snapshot
    held before, for every organisation and identifier. *)
Theorem check_failure_keeps_snapshot (w : World) (c : dsCache) (e : error) :
  GetAllDataSources w = inl e →
  whileWaiting w c = c →
  check DatasourceUID w c =
    {| chk_state := c; chk_err := Some e; chk_queries := 1 |} ∧
  ∀ (orgID : Z) (uid : string),
    res_state (getDS DatasourceUID w c orgID uid) = c ∧
    res_ds (getDS DatasourceUID w c orgID uid) = lookupDS c orgID uid.
Proof.
  intros Hfail Hseq.
  assert (Hchk : check DatasourceUID w c =
    {| chk_state := c; chk_err := Some e; chk_queries := 1 |}).
  { rewrite check_guard_passes by (by rewrite Hseq). by rewrite Hfail, Hseq. }
  split; [exact Hchk | ].
  intros orgID uid. unfold getDS.
  destruct (stale c (nowAtResolve w)); simpl; [ | done].
  by rewrite Hchk.
Qed.

(** C6, as the code has it: [getDS] calls [check] exactly when it holds no
    snapshot or the time stamp is more than one minute behind the clock. A
    call made within the window queries the catalog zero times. A call made
    outside it queries the catalog exactly once when the time stamp is
    unchanged once it holds the mutex, and zero times when another caller
    changed the time stamp while it waited: [check] then returns without
    querying. *)
Theorem getDS_checks_and_queries (w : World) (c : dsCache) (orgID : Z)
    (uid : string) :
  (cache c = None ∨ timestamp c < nowAtResolve w - Minute →
     res_checks (getDS DatasourceUID w c orgID uid) = 1%nat ∧
     (timestamp (whileWaiting w c) = timestamp c →
      res_queries (getDS DatasourceUID w c orgID uid) = 1%nat) ∧
     (timestamp (whileWaiting w c) ≠ timestamp c →
      res_queries (getDS DatasourceUID w c orgID uid) = 0%nat)) ∧
  (¬ (cache c = None ∨ timestamp c < nowAtResolve w - Minute) →
     res_checks (getDS DatasourceUID w c orgID uid) = 0%nat ∧
     res_queries (getDS DatasourceUID w c orgID uid) = 0%nat).
Proof.
  split; intros Hst.
  - apply stale_spec in Hst. unfold getDS. rewrite Hst. simpl.
    split; [done | ]. split; intros Hts.
    + rewrite check_guard_passes by done. by destruct (GetAllDataSources w).
    + unfold check. by rewrite bool_decide_eq_true_2.
  - unfold getDS. destruct (stale c (nowAtResolve w)) eqn:Hs; [ | done].
    apply stale_spec in Hs. contradiction.
Qed.

(** C10: the error of [getDS] is the error of the [check] it ran, nil when
    it ran none, whatever organisation and identifier are looked up. So a
    found descriptor can come with a non-nil error, and a missing
    organisation or a missing identifier comes with a nil error when no
    refresh failed. *)
Theorem getDS_error_is_refresh_error :
  (∀ (w : World) (c : dsCache) (orgID : Z) (uid : string),
     res_err (getDS DatasourceUID w c orgID uid) =
     if stale c (nowAtResolve w) then chk_err (check DatasourceUID w c)
     else None) ∧
  (∃ (w : World) (c : dsCache) (orgID : Z) (uid : string) (d : dsVal)
     (e : error),
     res_ds (getDS DatasourceUID w c orgID uid) = Some d ∧
     res_err (getDS DatasourceUID w c orgID uid) = Some e) ∧
  (∃ (w : World) (c : dsCache) (orgID : Z) (uid : string)
     (m : gmap Z (gmap string dsVal)),
     cache (res_state (getDS DatasourceUID w c orgID uid)) = Some m ∧
     m !! orgID = None ∧
     res_ds (getDS DatasourceUID w c orgID uid) = None ∧
     res_err (getDS DatasourceUID w c orgID uid) = None) ∧
  (∃ (w : World) (c : dsCache) (orgID : Z) (uid : string)
     (m : gmap Z (gmap string dsVal)) (v : gmap string dsVal),
     cache (res_state (getDS DatasourceUID w c orgID uid)) = Some m ∧
     m !! orgID = Some v ∧ v !! uid = None ∧
     res_ds (getDS DatasourceUID w c orgID uid) = None ∧
     res_err (getDS DatasourceUID w c orgID uid) = None).
Proof.
  split; [ | split; [ | split]].
  - intros w c orgID uid. unfold getDS.
    by destruct (stale c (nowAtResolve w)).
  - exists (worldOf (inl "catalog unavailable") listedOrder 60000002000),
      warm, 1, "abc".
    eexists _, "catalog unavailable". split; vm_compute; reflexivity.
  - exists (worldOf (inr [prometheus]) listedOrder 2000), warm, 2, "abc".
    eexists. repeat split; vm_compute; reflexivity.
  - exists (worldOf (inr [prometheus]) listedOrder 2000), warm, 1, "nope".
    eexists _, _. repeat split; vm_compute; reflexivity.
Qed.

End Protocol.

(** ** The secondary indexing pass *)

Section Indexing.

Implicit Types (m : gmap string dsVal) (ds v : dsVal) (k : string).

Lemma fileIfAbsent_preserves k ds m k' v :
  m !! k' = Some v → fileIfAbsent k ds m !! k' = Some v.
Proof.
  intros Hk'. unfold fileIfAbsent. destruct (m !! k) eqn:Hk; [done | ].
  rewrite lookup_insert_ne; [done | ]. intros ->. congruence.
Qed.

Lemma fileIfAbsent_filed k ds m :
  m !! k = None → fileIfAbsent k ds m !! k = Some ds.
Proof. intros Hk. unfold fileIfAbsent. rewrite Hk. apply lookup_insert_eq. Qed.

Lemma fileIfAbsent_other k ds m k' :
  k' ≠ k → fileIfAbsent k ds m !! k' = m !! k'.
Proof.
  intros Hne. unfold fileIfAbsent. destruct (m !! k); [done | ].
  by rewrite lookup_insert_ne.
Qed.

Lemma fileIfAbsent_occupied k ds m : is_Some (fileIfAbsent k ds m !! k).
Proof.
  unfold fileIfAbsent. destruct (m !! k) eqn:Hk; [by rewrite Hk | ].
  rewrite lookup_insert_eq. done.
Qed.

Lemma fileSecondary_preserves m ds k v :
  m !! k = Some v → fileSecondary m ds !! k = Some v.
Proof.
  intros Hk. unfold fileSecondary. by do 2 apply fileIfAbsent_preserves.
Qed.

Lemma fileSecondary_other m ds k :
  k ≠ Sprintf_d (InternalID ds) → k ≠ Name ds →
  fileSecondary m ds !! k = m !! k.
Proof.
  intros Hid Hname. unfold fileSecondary.
  by rewrite !fileIfAbsent_other.
Qed.

Lemma fileSecondary_occupied m ds k :
  k = Sprintf_d (InternalID ds) ∨ k = Name ds →
  is_Some (fileSecondary m ds !! k).
Proof.
  intros [-> | ->]; unfold fileSecondary.
  - destruct (fileIfAbsent_occupied (Sprintf_d (InternalID ds)) ds m) as [v Hv].
    exists v. by apply fileIfAbsent_preserves.
  - apply fileIfAbsent_occupied.
Qed.

(** A key read after one visit was there before, or is a secondary key of
    the visited value and holds that value. *)
Lemma fileSecondary_inv m ds k v :
  fileSecondary m ds !! k = Some v →
  m !! k = Some v ∨
  (m !! k = None ∧ v = ds ∧ (k = Sprintf_d (InternalID ds) ∨ k = Name ds)).
Proof.
  unfold fileSecondary. intros H.
  destruct (decide (k = Name ds)) as [-> | Hname].
  - destruct (fileIfAbsent (Sprintf_d (InternalID ds)) ds m !! Name ds) eqn:H1.
    + rewrite (fileIfAbsent_preserves _ _ _ _ _ H1) in H. simplify_eq.
      destruct (decide (Name ds = Sprintf_d (InternalID ds))) as [Heq | Hne].
      * destruct (m !! Name ds) eqn:H2.
        -- rewrite (fileIfAbsent_preserves _ _ _ _ _ H2) in H1. left. congruence.
        -- right. rewrite Heq in H1, H2. rewrite fileIfAbsent_filed in H1 by done.
           simplify_eq. auto.
      * rewrite fileIfAbsent_other in H1 by done. by left.
    + rewrite fileIfAbsent_filed in H by done. simplify_eq. right.
      split; [ | auto].
      destruct (m !! Name v) eqn:H2; [ | done].
      rewrite (fileIfAbsent_preserves _ _ _ _ _ H2) in H1. done.
  - rewrite fileIfAbsent_other in H by done.
    destruct (decide (k = Sprintf_d (InternalID ds))) as [-> | Hid].
    + destruct (m !! Sprintf_d (InternalID ds)) eqn:H2.
      * rewrite (fileIfAbsent_preserves _ _ _ _ _ H2) in H. left. congruence.
      * rewrite fileIfAbsent_filed in H by done. simplify_eq. right. auto.
    + rewrite fileIfAbsent_other in H by done. by left.
Qed.

Lemma secondaryPass_preserves (visit : list dsVal) m k v :
  m !! k = Some v → foldl fileSecondary m visit !! k = Some v.
Proof.
  revert m. induction visit as [ | ds visit IH]; intros m Hk; [done | ].
  simpl. apply IH. by apply fileSecondary_preserves.
Qed.

Lemma secondaryPass_occupied (visit : list dsVal) m ds k :
  ds ∈ visit → k = Sprintf_d (InternalID ds) ∨ k = Name ds →
  is_Some (foldl fileSecondary m visit !! k).
Proof.
  revert m. induction visit as [ | d visit IH]; intros m Hin Hk.
  - by apply elem_of_nil in Hin.
  - simpl. apply elem_of_cons in Hin as [<- | Hin].
    + destruct (fileSecondary_occupied m ds k Hk) as [v Hv].
      exists v. by apply secondaryPass_preserves.
    + by apply IH.
Qed.

Lemma secondaryPass_inv (visit : list dsVal) m k v :
  foldl fileSecondary m visit !! k = Some v →
  m !! k = Some v ∨
  (m !! k = None ∧ v ∈ visit ∧ (k = Sprintf_d (InternalID v) ∨ k = Name v)).
Proof.
  revert m. induction visit as [ | d visit IH]; intros m H; [by left | ].
  simpl in H. apply IH in H as [H | (Hnone & Hin & Hk)].
  - apply fileSecondary_inv in H as [H | (Hnone & -> & Hk)]; [by left | ].
    right. split; [done | ]. split; [apply elem_of_cons; by left | done].
  - right. split.
    + destruct (m !! k) eqn:Hm; [ | done].
      rewrite (fileSecondary_preserves _ _ _ _ Hm) in Hnone. done.
    + split; [apply elem_of_cons; by right | done].
Qed.

End Indexing.

(** ** The primary pass over the catalog *)

Lemma Sprintf_d_not_default (id : Z) : Sprintf_d id ≠ "default".
Proof.
  unfold Sprintf_d. destruct id as [ | p | p]; [done | | done].
  simpl. pose proof (Unsigned.to_uint_nonnil p) as Hnil.
  destruct (Pos.to_uint p); done.
Qed.

Section Catalog.

Variable plugin : string → bool.

Implicit Types (result : list DataSource) (r : DataSource) (orgID : Z).

Lemma primaryPass_snoc result r :
  primaryPass plugin (result ++ [r]) = filePrimary plugin (primaryPass plugin result) r.
Proof. unfold primaryPass. by rewrite foldl_app. Qed.

(** An organisation has an index exactly when the catalog lists a record
    of it. *)
Lemma primaryPass_indexed result orgID :
  is_Some ((primaryPass plugin result).1 !! orgID) ↔
  ∃ r, r ∈ result ∧ ds_OrgId r = orgID.
Proof.
  induction result as [ | r result IH] using rev_ind.
  - unfold primaryPass. simpl. rewrite lookup_empty. split.
    + by intros [? ?].
    + intros (r & Hr & _). by apply elem_of_nil in Hr.
  - rewrite primaryPass_snoc. unfold filePrimary. simpl.
    destruct (decide (ds_OrgId r = orgID)) as [<- | Hne].
    + rewrite lookup_insert_eq. split; [ | done].
      intros _. exists r. split; [ | done]. apply elem_of_app. right.
      by apply list_elem_of_singleton.
    + rewrite lookup_insert_ne by done. rewrite IH. split.
      * intros (r' & Hr' & Horg). exists r'. split; [ | done].
        apply elem_of_app. by left.
      * intros (r' & Hr' & Horg). exists r'. split; [ | done].
        apply elem_of_app in Hr' as [Hr' | Hr']; [done | ].
        apply list_elem_of_singleton in Hr'. congruence.
Qed.

(** Every entry of a primary index is a catalog record of that
    organisation, filed under its uid. *)
Lemma primaryPass_entry result orgID (P : gmap string dsVal) k v :
  (primaryPass plugin result).1 !! orgID = Some P → P !! k = Some v →
  ∃ r, r ∈ result ∧ ds_OrgId r = orgID ∧ ds_Uid r = k ∧ v = newVal plugin r.
Proof.
  revert P. induction result as [ | r result IH] using rev_ind; intros P.
  - unfold primaryPass. simpl. by rewrite lookup_empty.
  - rewrite primaryPass_snoc. unfold filePrimary. simpl.
    destruct (decide (ds_OrgId r = orgID)) as [<- | Hne].
    + rewrite lookup_insert_eq. intros [= <-].
      destruct (decide (ds_Uid r = k)) as [<- | Hk].
      * rewrite lookup_insert_eq. intros [= <-]. exists r.
        split; [ | done]. apply elem_of_app. right.
        by apply list_elem_of_singleton.
      * rewrite lookup_insert_ne by done.
        destruct ((primaryPass plugin result).1 !! ds_OrgId r) as [P0 | ] eqn:HP0;
          simpl; [ | by rewrite lookup_empty].
        intros Hv. destruct (IH P0 eq_refl Hv) as (r' & Hr' & H').
        exists r'. split; [ | done]. apply elem_of_app. by left.
    + rewrite lookup_insert_ne by done. intros HP Hv.
      destruct (IH P HP Hv) as (r' & Hr' & H').
      exists r'. split; [ | done]. apply elem_of_app. by left.
Qed.

(** [defaultDS] holds, per organisation, the last record marked default. *)
Lemma primaryPass_default result orgID :
  (primaryPass plugin result).2 !! orgID =
  newVal plugin <$> defaultRecord orgID result.
Proof.
  unfold defaultRecord.
  induction result as [ | r result IH] using rev_ind.
  - unfold primaryPass. simpl. by rewrite lookup_empty.
  - rewrite primaryPass_snoc. unfold filePrimary. simpl.
    rewrite filter_app. 
    destruct (ds_IsDefault r) eqn:Hdef.
    + destruct (decide (ds_OrgId r = orgID)) as [<- | Hne].
      * rewrite lookup_insert_eq. rewrite filter_cons_True by done.
        rewrite filter_nil. by rewrite last_snoc.
      * rewrite lookup_insert_ne by done.
        rewrite filter_cons_False by (intros [? ?]; done).
        rewrite filter_nil, app_nil_r. exact IH.
    + rewrite filter_cons_False by (intros [? ?]; congruence).
      rewrite filter_nil, app_nil_r. exact IH.
Qed.

End Catalog.

(** ** One organisation of the snapshot *)

Section Snapshot.

Variable DatasourceUID : string.

Implicit Types (m P : gmap string dsVal) (result : list DataSource)
  (defaultDS : gmap Z dsVal) (visit : list dsVal) (orgID : Z).

Lemma indexOrg_empty_key defaultDS visit orgID P :
  indexOrg DatasourceUID defaultDS visit orgID P !! "" =
  Some (default (gds DatasourceUID) (defaultDS !! orgID)).
Proof.
  unfold indexOrg. cbv zeta.
  match goal with |- context [match ?x with _ => _ end !! _] => destruct x end.
  - apply lookup_insert_eq.
  - rewrite lookup_insert_ne by done. apply lookup_insert_eq.
Qed.

Lemma indexOrg_builtin_key defaultDS visit orgID P :
  DatasourceUID ≠ "" →
  indexOrg DatasourceUID defaultDS visit orgID P !! DatasourceUID =
  Some (gds DatasourceUID).
Proof.
  intros Hne. unfold indexOrg. cbv zeta. simpl.
  assert (Hb : (<["":=default (gds DatasourceUID) (defaultDS !! orgID)]>
            (<[DatasourceUID:=gds DatasourceUID]> (foldl fileSecondary P visit)))
            !! DatasourceUID = Some (gds DatasourceUID)).
  { rewrite lookup_insert_ne by done. apply lookup_insert_eq. }
  match goal with |- context [match ?x with _ => _ end !! _] => destruct x eqn:Hd end.
  - exact Hb.
  - rewrite lookup_insert_ne; [exact Hb | ]. intros <-.
    rewrite lookup_insert_ne in Hd by done. by rewrite lookup_insert_eq in Hd.
Qed.

Lemma indexOrg_default_key defaultDS visit orgID P :
  DatasourceUID ≠ "default" →
  foldl fileSecondary P visit !! "default" = None →
  indexOrg DatasourceUID defaultDS visit orgID P !! "default" =
  Some (default (gds DatasourceUID) (defaultDS !! orgID)).
Proof.
  intros Hne Hfree. unfold indexOrg. cbv zeta. simpl.
  rewrite lookup_insert_ne by done. rewrite lookup_insert_ne by done.
  rewrite Hfree. apply lookup_insert_eq.
Qed.

Lemma buildCache_lookup plugin order result orgID :
  buildCache DatasourceUID plugin order result !! orgID =
  (λ P, indexOrg DatasourceUID (primaryPass plugin result).2 (order orgID P) orgID P)
    <$> (primaryPass plugin result).1 !! orgID.
Proof.
  unfold buildCache. cbv zeta. rewrite map_lookup_imap.
  by destruct ((primaryPass plugin result).1 !! orgID).
Qed.

(** Two visits of the same primary index file the same secondary keys when
    no two of its values compete for a key. *)
Lemma secondaryPass_order_irrelevant P visit1 visit2 :
  (∀ v, v ∈ visit1 ↔ ∃ k, P !! k = Some v) →
  (∀ v, v ∈ visit2 ↔ ∃ k, P !! k = Some v) →
  (∀ v1 v2 k k1 k2, P !! k1 = Some v1 → P !! k2 = Some v2 →
     (k = Sprintf_d (InternalID v1) ∨ k = Name v1) →
     (k = Sprintf_d (InternalID v2) ∨ k = Name v2) → v1 = v2) →
  foldl fileSecondary P visit1 = foldl fileSecondary P visit2.
Proof.
  intros H1 H2 Hfree.
  assert (Hle : ∀ l1 l2,
    (∀ v, v ∈ l1 ↔ ∃ k, P !! k = Some v) →
    (∀ v, v ∈ l2 ↔ ∃ k, P !! k = Some v) →
    ∀ k v, foldl fileSecondary P l1 !! k = Some v →
           foldl fileSecondary P l2 !! k = Some v).
  { intros l1 l2 Hl1 Hl2 k v Hv.
    apply secondaryPass_inv in Hv as [Hv | (Hnone & Hin & Hk)].
    - by apply secondaryPass_preserves.
    - assert (Hin2 : v ∈ l2) by (apply Hl2; by apply Hl1).
      destruct (secondaryPass_occupied l2 P v k Hin2 Hk) as [v' Hv'].
      rewrite Hv'. f_equal.
      apply secondaryPass_inv in Hv' as [Hv' | (_ & Hin' & Hk')]; [congruence | ].
      apply Hl1 in Hin as [k1 Hk1]. apply Hl2 in Hin' as [k2 Hk2].
      by apply (Hfree v' v k k2 k1). }
  apply map_eq. intros k.
  destruct (foldl fileSecondary P visit1 !! k) as [v | ] eqn:Hv1.
  - symmetry. by apply (Hle visit1 visit2).
  - destruct (foldl fileSecondary P visit2 !! k) as [v | ] eqn:Hv2; [ | done].
    apply (Hle visit2 visit1) in Hv2; [congruence | done | done].
Qed.

(** The key ["default"] is free after the pass when no visited value would
    file it and the primary index does not hold it. *)
Lemma secondaryPass_default_free P visit :
  P !! "default" = None →
  (∀ v, v ∈ visit → Name v ≠ "default") →
  foldl fileSecondary P visit !! "default" = None.
Proof.
  intros HP Hnames.
  destruct (foldl fileSecondary P visit !! "default") as [v | ] eqn:Hv; [ | done].
  apply secondaryPass_inv in Hv as [Hv | (_ & Hin & [Hk | Hk])].
  - congruence.
  - symmetry in Hk. by apply Sprintf_d_not_default in Hk.
  - symmetry in Hk. by apply Hnames in Hk.
Qed.

Lemma goRange_listedOrder : goRange listedOrder.
Proof.
  intros orgID m v. unfold listedOrder. rewrite list_elem_of_fmap. split.
  - intros ([k v'] & -> & Hin). exists k. by apply elem_of_map_to_list.
  - intros [k Hk]. exists (k, v). split; [done | ].
    by apply elem_of_map_to_list.
Qed.

Lemma goRange_reversedOrder : goRange reversedOrder.
Proof.
  intros orgID m v. unfold reversedOrder. rewrite elem_of_reverse.
  exact (goRange_listedOrder orgID m v).
Qed.

End Snapshot.

(** ** The published snapshot and what [getDS] reads from it *)

Section Contents.

Variable DatasourceUID : string.

Implicit Types (w : World) (c : dsCache) (result : list DataSource)
  (orgID : Z) (uid : string).

Lemma getDS_refreshed w c result orgID uid :
  refreshesWith w c result →
  getDS DatasourceUID w c orgID uid =
  {| res_state :=
       {| cache := Some (buildCache DatasourceUID (Plugin w) (rangeOrder w) result);
          timestamp := nowAtPublish w |};
     res_ds :=
       buildCache DatasourceUID (Plugin w) (rangeOrder w) result !! orgID
         ≫= (λ idx, idx !! uid);
     res_err := None;
     res_checks := 1;
     res_queries := 1 |}.
Proof.
  intros (Hstale & Hts & Hok). unfold getDS. rewrite Hstale.
  rewrite check_guard_passes by done. rewrite Hok. simpl.
  unfold lookupDS. simpl.
  by destruct (buildCache DatasourceUID (Plugin w) (rangeOrder w) result !! orgID).
Qed.

Lemma primaryPass_ext (p1 p2 : string → bool) result :
  (∀ t, p1 t = p2 t) → primaryPass p1 result = primaryPass p2 result.
Proof.
  intros Hp. induction result as [ | r result IH] using rev_ind; [done | ].
  rewrite !primaryPass_snoc, IH. unfold filePrimary, newVal. simpl.
  by rewrite Hp.
Qed.

(** C8: a visit files the decimal internal id and the name only under a
    key that is free, so the first value filed under a secondary key keeps
    it: no key present before a visit, and none present before the whole
    pass (the uid keys among them), ever changes its value. *)
Theorem secondary_keys_first_writer_wins (m : gmap string dsVal) :
  (∀ (ds : dsVal) (k : string) (v : dsVal),
     m !! k = Some v → fileSecondary m ds !! k = Some v) ∧
  (∀ ds : dsVal,
     m !! Sprintf_d (InternalID ds) = None →
     fileSecondary m ds !! Sprintf_d (InternalID ds) = Some ds) ∧
  (∀ ds : dsVal,
     m !! Name ds = None → fileSecondary m ds !! Name ds = Some ds) ∧
  (∀ (ds : dsVal) (k : string),
     k ≠ Sprintf_d (InternalID ds) → k ≠ Name ds →
     fileSecondary m ds !! k = m !! k) ∧
  (∀ (visit : list dsVal) (k : string) (v : dsVal),
     m !! k = Some v → foldl fileSecondary m visit !! k = Some v).
Proof.
  split; [ | split; [ | split; [ | split]]].
  - intros ds k v. apply fileSecondary_preserves.
  - intros ds Hfree. unfold fileSecondary.
    apply fileIfAbsent_preserves. by apply fileIfAbsent_filed.
  - intros ds Hfree.
    destruct (fileSecondary_occupied m ds (Name ds)) as [v Hv]; [by right | ].
    rewrite Hv. f_equal.
    apply fileSecondary_inv in Hv as [Hv | (_ & -> & _)]; congruence.
  - intros ds k. apply fileSecondary_other.
  - intros visit k v. apply secondaryPass_preserves.
Qed.

(** C1, as the code has it: when the organisation has no index, or its
    index has no entry for the identifier, [getDS] returns the nil
    descriptor; the error it returns with it is non-nil only if this call
    ran [check] and the catalog query failed, and is then the catalog's
    error. *)
Theorem getDS_not_found_returns_nil w c orgID uid :
  (∀ m : gmap Z (gmap string dsVal),
     cache (res_state (getDS DatasourceUID w c orgID uid)) = Some m →
     m !! orgID = None ∨ ∃ idx, m !! orgID = Some idx ∧ idx !! uid = None) →
  res_ds (getDS DatasourceUID w c orgID uid) = None ∧
  ∀ e : error,
    res_err (getDS DatasourceUID w c orgID uid) = Some e →
    stale c (nowAtResolve w) = true ∧ GetAllDataSources w = inl e.
Proof.
  intros Hmiss. split.
  - rewrite getDS_serves_state. unfold lookupDS.
    destruct (cache (res_state (getDS DatasourceUID w c orgID uid))) as [m | ];
      [ | done].
    destruct (Hmiss m eq_refl) as [-> | (idx & -> & Hidx)]; done.
  - intros e. unfold getDS.
    destruct (stale c (nowAtResolve w)); simpl; [ | done].
    intros He. split; [done | ]. by apply check_err_from_catalog in He.
Qed.

(** C2, as the code has it: after a refresh that succeeds, every
    organisation with at least one catalog record has an index, and the
    index holds the built-in descriptor under the built-in uid, and under
    [""] as well when no record of the organisation is marked default. An
    organisation without catalog records has no index, and [getDS] finds
    nothing for it. *)
Theorem builtin_in_every_index w c result orgID :
  refreshesWith w c result →
  DatasourceUID ≠ "" →
  ((∃ r, r ∈ result ∧ ds_OrgId r = orgID) →
     ∃ (m : gmap Z (gmap string dsVal)) (idx : gmap string dsVal),
       cache (res_state (getDS DatasourceUID w c orgID "")) = Some m ∧
       m !! orgID = Some idx ∧
       idx !! DatasourceUID = Some (gds DatasourceUID) ∧
       (defaultRecord orgID result = None →
        res_ds (getDS DatasourceUID w c orgID "") = Some (gds DatasourceUID))) ∧
  ((∀ r, r ∈ result → ds_OrgId r ≠ orgID) →
     ∃ m : gmap Z (gmap string dsVal),
       cache (res_state (getDS DatasourceUID w c orgID "")) = Some m ∧
       m !! orgID = None ∧
       res_ds (getDS DatasourceUID w c orgID "") = None).
Proof.
  intros Hrefresh Hne. rewrite (getDS_refreshed w c result) by done. simpl.
  rewrite buildCache_lookup. split.
  - intros Hrec. apply primaryPass_indexed with (plugin := Plugin w) in Hrec
      as [P HP].
    eexists _, _. split; [done | ]. rewrite buildCache_lookup, HP. simpl.
    split; [done | ]. split; [by apply indexOrg_builtin_key | ].
    intros Hdef. rewrite indexOrg_empty_key, primaryPass_default, Hdef. done.
  - intros Hnone. eexists. split; [done | ]. rewrite buildCache_lookup.
    destruct ((primaryPass (Plugin w) result).1 !! orgID) as [P | ] eqn:HP;
      [ | done].
    assert (Hsome : is_Some ((primaryPass (Plugin w) result).1 !! orgID))
      by (by rewrite HP).
    apply primaryPass_indexed in Hsome as (r & Hr & Horg).
    by apply Hnone in Hr.
Qed.

(** C5, as the code has it: for every organisation with at least one
    catalog record, whatever else the catalog holds, [getDS] called with the
    built-in uid after a successful refresh returns the built-in descriptor,
    whose [PluginExists] is true. *)
Theorem builtin_uid_resolves w c result orgID :
  refreshesWith w c result →
  DatasourceUID ≠ "" →
  (∃ r, r ∈ result ∧ ds_OrgId r = orgID) →
  ∃ d : dsVal,
    res_ds (getDS DatasourceUID w c orgID DatasourceUID) = Some d ∧
    d = gds DatasourceUID ∧ PluginExists d = true.
Proof.
  intros Hrefresh Hne Hrec. rewrite (getDS_refreshed w c result) by done.
  simpl. rewrite buildCache_lookup.
  apply primaryPass_indexed with (plugin := Plugin w) in Hrec as [P HP].
  rewrite HP. simpl. exists (gds DatasourceUID).
  split; [by apply indexOrg_builtin_key | done].
Qed.

(** C4, as the code has it: for every organisation with at least one
    catalog record, [getDS] with [""] returns the last catalog record of the
    organisation marked default, or the built-in descriptor when none is;
    [getDS] with ["default"] returns the same descriptor when no record of
    the organisation has the uid or the name ["default"]. *)
Theorem default_keys_resolve w c result orgID :
  refreshesWith w c result →
  (∃ r, r ∈ result ∧ ds_OrgId r = orgID) →
  let d := match defaultRecord orgID result with
           | Some r => newVal (Plugin w) r
           | None => gds DatasourceUID
           end in
  res_ds (getDS DatasourceUID w c orgID "") = Some d ∧
  (goRange (rangeOrder w) →
   DatasourceUID ≠ "default" →
   (∀ r, r ∈ result → ds_OrgId r = orgID →
         ds_Uid r ≠ "default" ∧ ds_Name r ≠ "default") →
   res_ds (getDS DatasourceUID w c orgID "default") = Some d).
Proof.
  intros Hrefresh Hrec d.
  rewrite !(getDS_refreshed w c result) by done. simpl.
  rewrite buildCache_lookup.
  apply primaryPass_indexed with (plugin := Plugin w) in Hrec as [P HP].
  rewrite HP. simpl.
  assert (Hd : default (gds DatasourceUID)
                 ((primaryPass (Plugin w) result).2 !! orgID) = d).
  { rewrite primaryPass_default. unfold d.
    by destruct (defaultRecord orgID result). }
  split.
  - by rewrite indexOrg_empty_key, Hd.
  - intros Horder Hne Hnames.
    rewrite indexOrg_default_key, Hd; [done | done | ].
    apply secondaryPass_default_free.
    + destruct (P !! "default") as [v | ] eqn:Hv; [ | done].
      destruct (primaryPass_entry _ _ _ _ _ _ HP Hv) as (r & Hr & Horg & Huid & _).
      by destruct (Hnames r Hr Horg).
    + intros v Hin. apply Horder in Hin as [k Hk].
      destruct (primaryPass_entry _ _ _ _ _ _ HP Hk) as (r & Hr & Horg & _ & ->).
      simpl. by destruct (Hnames r Hr Horg).
Qed.

(** C9, as the code has it: for one catalog result and one plugin
    registry, two runs of [check] one after the other publish equal maps,
    whatever orders the two runs iterate in, provided no two records of one
    organisation with different uids share a name or a decimal internal id,
    or have the name of one equal to the decimal internal id of the other. *)
Theorem rebuild_twice_same_snapshot (w1 w2 : World) c result :
  GetAllDataSources w1 = inr result →
  GetAllDataSources w2 = inr result →
  (∀ type : string, Plugin w1 type = Plugin w2 type) →
  whileWaiting w1 c = c →
  whileWaiting w2 (chk_state (check DatasourceUID w1 c)) =
    chk_state (check DatasourceUID w1 c) →
  goRange (rangeOrder w1) →
  goRange (rangeOrder w2) →
  collisionFree result →
  cache (chk_state (check DatasourceUID w2 (chk_state (check DatasourceUID w1 c)))) =
  cache (chk_state (check DatasourceUID w1 c)).
Proof.
  intros Hok1 Hok2 Hplugin Hseq1 Hseq2 Hord1 Hord2 Hfree.
  rewrite (check_guard_passes _ w2) by (by rewrite Hseq2).
  rewrite (check_guard_passes _ w1) by (by rewrite Hseq1).
  rewrite Hok1, Hok2. simpl. f_equal.
  apply map_eq. intros orgID. rewrite !buildCache_lookup.
  rewrite (primaryPass_ext (Plugin w2) (Plugin w1)) by done.
  destruct ((primaryPass (Plugin w1) result).1 !! orgID) as [P | ] eqn:HP;
    [ | done].
  simpl. f_equal. unfold indexOrg.
  rewrite (secondaryPass_order_irrelevant P (rangeOrder w2 orgID P)
             (rangeOrder w1 orgID P)); [done | apply Hord2 | apply Hord1 | ].
  intros v1 v2 k k1 k2 Hv1 Hv2 Hk1 Hk2.
  destruct (primaryPass_entry _ _ _ _ _ _ HP Hv1) as (r1 & Hr1 & Ho1 & Hu1 & ->).
  destruct (primaryPass_entry _ _ _ _ _ _ HP Hv2) as (r2 & Hr2 & Ho2 & Hu2 & ->).
  assert (Huid : ds_Uid r1 = ds_Uid r2).
  { apply (Hfree r1 r2 k); [done | done | congruence | | ].
    - unfold recordKeys. rewrite !elem_of_cons. simpl in Hk1. tauto.
    - unfold recordKeys. rewrite !elem_of_cons. simpl in Hk2. tauto. }
  assert (k1 = k2) by congruence. subst k2. congruence.
Qed.

End Contents.

(** ** The statements at sample inputs *)

(** A refresh from the cold start against the catalog [[prometheus]]. *)
Lemma coldStart_refreshes (result : list DataSource)
    (order : Z → gmap string dsVal → list dsVal) (now : Z) :
  refreshesWith (worldOf (inr result) order now) coldStart result.
Proof. by repeat split. Qed.

Lemma check_skips_when_already_updated_witness :
  timestamp (whileWaiting (contendedWorld 5) coldStart) ≠ timestamp coldStart ∧
  check "grafana" (contendedWorld 5) coldStart =
    {| chk_state := publishedMeanwhile coldStart;
       chk_err := None;
       chk_queries := 0 |}.
Proof.
  split; [done | ].
  apply (check_skips_when_already_updated "grafana" (contendedWorld 5) coldStart).
  done.
Defined.

Lemma check_failure_keeps_snapshot_witness :
  check "grafana" (worldOf (inl "catalog unavailable") listedOrder 60000002000) warm =
    {| chk_state := warm; chk_err := Some "catalog unavailable"; chk_queries := 1 |} ∧
  ∀ (orgID : Z) (uid : string),
    res_state (getDS "grafana"
      (worldOf (inl "catalog unavailable") listedOrder 60000002000) warm orgID uid) = warm ∧
    res_ds (getDS "grafana"
      (worldOf (inl "catalog unavailable") listedOrder 60000002000) warm orgID uid) =
      lookupDS warm orgID uid.
Proof.
  apply (check_failure_keeps_snapshot "grafana"
           (worldOf (inl "catalog unavailable") listedOrder 60000002000) warm
           "catalog unavailable"); reflexivity.
Defined.

Lemma getDS_not_found_returns_nil_witness :
  res_ds (getDS "grafana" (worldOf (inr [prometheus]) listedOrder 2000) warm 2 "abc") = None ∧
  ∀ e : error,
    res_err (getDS "grafana" (worldOf (inr [prometheus]) listedOrder 2000) warm 2 "abc") = Some e →
    stale warm (nowAtResolve (worldOf (inr [prometheus]) listedOrder 2000)) = true ∧
    GetAllDataSources (worldOf (inr [prometheus]) listedOrder 2000) = inl e.
Proof.
  apply (getDS_not_found_returns_nil "grafana"
           (worldOf (inr [prometheus]) listedOrder 2000) warm 2 "abc").
  intros m Hm. left.
  assert (Hwarm : cache (res_state (getDS "grafana"
                    (worldOf (inr [prometheus]) listedOrder 2000) warm 2 "abc")) =
                  Some (buildCache "grafana" hasPrometheus listedOrder [prometheus]))
    by reflexivity.
  rewrite Hwarm in Hm. injection Hm as <-.
  rewrite buildCache_lookup. reflexivity.
Defined.

Lemma builtin_in_every_index_witness :
  ∃ (m : gmap Z (gmap string dsVal)) (idx : gmap string dsVal),
    cache (res_state (getDS "grafana" (worldOf (inr [dbA]) listedOrder 1000)
                        coldStart 1 "")) = Some m ∧
    m !! 1 = Some idx ∧
    idx !! "grafana" = Some (gds "grafana") ∧
    res_ds (getDS "grafana" (worldOf (inr [dbA]) listedOrder 1000) coldStart 1 "") =
      Some (gds "grafana").
Proof.
  assert (Hne : "grafana" ≠ "") by done.
  assert (Hrec : ∃ r, r ∈ [dbA] ∧ ds_OrgId r = 1).
  { exists dbA. split; [apply list_elem_of_singleton | ]; reflexivity. }
  destruct (builtin_in_every_index "grafana" (worldOf (inr [dbA]) listedOrder 1000)
              coldStart [dbA] 1 (coldStart_refreshes _ _ _) Hne) as [Hindexed _].
  destruct (Hindexed Hrec) as (m & idx & Hm & Hidx & Hbuiltin & Hdefault).
  exists m, idx. split; [exact Hm | ]. split; [exact Hidx | ].
  split; [exact Hbuiltin | ]. apply Hdefault. reflexivity.
Defined.

Lemma builtin_uid_resolves_witness :
  ∃ d : dsVal,
    res_ds (getDS "grafana" (worldOf (inr [prometheus]) listedOrder 1000)
              coldStart 1 "grafana") = Some d ∧
    d = gds "grafana" ∧ PluginExists d = true.
Proof.
  apply (builtin_uid_resolves "grafana" (worldOf (inr [prometheus]) listedOrder 1000)
           coldStart [prometheus] 1).
  - apply coldStart_refreshes.
  - done.
  - exists prometheus. split; [apply list_elem_of_singleton | ]; reflexivity.
Defined.

Lemma default_keys_resolve_witness :
  res_ds (getDS "grafana" (worldOf (inr [prometheus]) listedOrder 1000)
            coldStart 1 "") = Some (newVal hasPrometheus prometheus) ∧
  res_ds (getDS "grafana" (worldOf (inr [prometheus]) listedOrder 1000)
            coldStart 1 "default") = Some (newVal hasPrometheus prometheus).
Proof.
  assert (Hrec : ∃ r, r ∈ [prometheus] ∧ ds_OrgId r = 1).
  { exists prometheus. split; [apply list_elem_of_singleton | ]; reflexivity. }
  destruct (default_keys_resolve "grafana" (worldOf (inr [prometheus]) listedOrder 1000)
              coldStart [prometheus] 1 (coldStart_refreshes _ _ _) Hrec)
    as [Hempty Hdefault].
  split; [exact Hempty | ]. apply Hdefault.
  - apply goRange_listedOrder.
  - done.
  - intros r Hr _. apply list_elem_of_singleton in Hr as ->.
    split; discriminate.
Defined.

Lemma collisionFree_sample : collisionFree [prometheus; namedDefault].
Proof.
  intros r1 r2 k Hr1 Hr2 _ Hk1 Hk2.
  rewrite !elem_of_cons in Hr1, Hr2.
  destruct Hr1 as [-> | [-> | Hr1]]; [ | | by apply elem_of_nil in Hr1];
    destruct Hr2 as [-> | [-> | Hr2]]; try done;
    try (by apply elem_of_nil in Hr2);
    unfold recordKeys in Hk1, Hk2; rewrite !elem_of_cons in Hk1, Hk2;
    destruct Hk1 as [-> | [-> | Hk1]]; try (by apply elem_of_nil in Hk1);
    destruct Hk2 as [Hk2 | [Hk2 | Hk2]]; try (by apply elem_of_nil in Hk2);
    vm_compute in Hk2; done.
Qed.

Lemma rebuild_twice_same_snapshot_witness :
  cache (chk_state (check "grafana"
           (worldOf (inr [prometheus; namedDefault]) reversedOrder 1001)
           (chk_state (check "grafana"
              (worldOf (inr [prometheus; namedDefault]) listedOrder 1000) coldStart)))) =
  cache (chk_state (check "grafana"
           (worldOf (inr [prometheus; namedDefault]) listedOrder 1000) coldStart)).
Proof.
  apply (rebuild_twice_same_snapshot "grafana"
           (worldOf (inr [prometheus; namedDefault]) listedOrder 1000)
           (worldOf (inr [prometheus; namedDefault]) reversedOrder 1001)
           coldStart [prometheus; namedDefault]); try reflexivity.
  - apply goRange_listedOrder.
  - apply goRange_reversedOrder.
  - apply collisionFree_sample.
Defined.

(** ** Where the code departs from the specification *)

(** C6 fails: a [getDS] that holds no snapshot, and one whose snapshot is
    more than a minute old, call [check]; another caller publishes while
    they wait for the mutex, and neither queries the catalog. *)
Lemma stale_getDS_without_query :
  cache coldStart = None ∧
  res_checks (getDS "grafana" (contendedWorld 5) coldStart 1 "abc") = 1%nat ∧
  res_queries (getDS "grafana" (contendedWorld 5) coldStart 1 "abc") = 0%nat ∧
  timestamp warm < nowAtResolve (contendedWorld 60000002000) - Minute ∧
  res_checks (getDS "grafana" (contendedWorld 60000002000) warm 1 "abc") = 1%nat ∧
  res_queries (getDS "grafana" (contendedWorld 60000002000) warm 1 "abc") = 0%nat.
Proof. repeat split; vm_compute; reflexivity. Qed.

(** C1 fails: with a fresh snapshot that lists organisation 1 only, a
    lookup for organisation 2 and a lookup of an unknown identifier in
    organisation 1 both return the nil descriptor with a nil error. *)
Lemma getDS_not_found_with_nil_error :
  (∃ m : gmap Z (gmap string dsVal), cache warm = Some m ∧ m !! 2 = None) ∧
  res_ds (getDS "grafana" (worldOf (inr [prometheus]) listedOrder 2000)
            warm 2 "abc") = None ∧
  res_err (getDS "grafana" (worldOf (inr [prometheus]) listedOrder 2000)
             warm 2 "abc") = None ∧
  (∃ (m : gmap Z (gmap string dsVal)) (idx : gmap string dsVal),
     cache warm = Some m ∧ m !! 1 = Some idx ∧ idx !! "nope" = None) ∧
  res_ds (getDS "grafana" (worldOf (inr [prometheus]) listedOrder 2000)
            warm 1 "nope") = None ∧
  res_err (getDS "grafana" (worldOf (inr [prometheus]) listedOrder 2000)
             warm 1 "nope") = None.
Proof.
  split; [eexists; split; [reflexivity | vm_compute; reflexivity] | ].
  split; [vm_compute; reflexivity | ].
  split; [vm_compute; reflexivity | ].
  split.
  { exists (buildCache "grafana" hasPrometheus listedOrder [prometheus]).
    eexists. split; [reflexivity | ].
    split; [rewrite buildCache_lookup; reflexivity | ].
    vm_compute. reflexivity. }
  split; vm_compute; reflexivity.
Qed.

(** C2 fails: the refresh from the cold start succeeds against a catalog
    that lists organisation 1 only; organisation 2 then has no index and
    [getDS] with [""] returns the nil descriptor for it. *)
Lemma unlisted_org_has_no_builtin :
  res_checks (getDS "grafana" (worldOf (inr [prometheus]) listedOrder 1000)
                coldStart 2 "") = 1%nat ∧
  res_err (getDS "grafana" (worldOf (inr [prometheus]) listedOrder 1000)
             coldStart 2 "") = None ∧
  (∃ m : gmap Z (gmap string dsVal),
     cache (res_state (getDS "grafana" (worldOf (inr [prometheus]) listedOrder 1000)
                         coldStart 2 "")) = Some m ∧
     m !! 2 = None) ∧
  res_ds (getDS "grafana" (worldOf (inr [prometheus]) listedOrder 1000)
            coldStart 2 "") = None.
Proof.
  split; [reflexivity | ]. split; [reflexivity | ].
  split; [eexists; split; [reflexivity | vm_compute; reflexivity] | ].
  vm_compute. reflexivity.
Qed.

(** C4 fails: organisation 1 has the default record [prometheus] and a
    record named ["default"]; [""] resolves to the former and ["default"]
    to the latter. For organisation 2, which the catalog does not list,
    [""] resolves to nothing. *)
Lemma default_key_taken_by_named_record :
  res_ds (getDS "grafana" (worldOf (inr [prometheus; namedDefault]) listedOrder 1000)
            coldStart 1 "") = Some (newVal hasPrometheus prometheus) ∧
  res_ds (getDS "grafana" (worldOf (inr [prometheus; namedDefault]) listedOrder 1000)
            coldStart 1 "default") = Some (newVal hasPrometheus namedDefault) ∧
  newVal hasPrometheus prometheus ≠ newVal hasPrometheus namedDefault ∧
  res_ds (getDS "grafana" (worldOf (inr [prometheus; namedDefault]) listedOrder 1000)
            coldStart 2 "") = None.
Proof.
  split; [vm_compute; reflexivity | ].
  split; [vm_compute; reflexivity | ].
  split; [ | vm_compute; reflexivity].
  intros H. discriminate H.
Qed.

(** C5 fails: against the empty catalog the refresh succeeds and no
    organisation has an index, so [getDS] with the built-in uid returns the
    nil descriptor. *)
Lemma builtin_uid_unresolved_for_unlisted_org :
  res_err (getDS "grafana" (worldOf (inr []) listedOrder 1000)
             coldStart 1 "grafana") = None ∧
  res_ds (getDS "grafana" (worldOf (inr []) listedOrder 1000)
            coldStart 1 "grafana") = None.
Proof. split; vm_compute; reflexivity. Qed.

(** C9 fails: two records of organisation 1 share the name ["db"]. One
    catalog result, one plugin registry, two runs of [check] in a row: the
    first iterates the index in one order, the second in the reverse order,
    and the key ["db"] holds a different record in the two maps. *)
Lemma rebuild_differs_on_name_collision :
  GetAllDataSources (worldOf (inr [dbA; dbB]) listedOrder 1000) =
    GetAllDataSources (worldOf (inr [dbA; dbB]) reversedOrder 1001) ∧
  lookupDS (chk_state (check "grafana" (worldOf (inr [dbA; dbB]) listedOrder 1000)
                         coldStart)) 1 "db" =
    Some (newVal hasPrometheus dbA) ∧
  lookupDS (chk_state (check "grafana" (worldOf (inr [dbA; dbB]) reversedOrder 1001)
              (chk_state (check "grafana" (worldOf (inr [dbA; dbB]) listedOrder 1000)
                            coldStart)))) 1 "db" =
    Some (newVal hasPrometheus dbB) ∧
  cache (chk_state (check "grafana" (worldOf (inr [dbA; dbB]) reversedOrder 1001)
           (chk_state (check "grafana" (worldOf (inr [dbA; dbB]) listedOrder 1000)
                         coldStart)))) ≠
  cache (chk_state (check "grafana" (worldOf (inr [dbA; dbB]) listedOrder 1000)
                      coldStart)).
Proof.
  split; [reflexivity | ].
  assert (H1 : lookupDS (chk_state (check "grafana"
                 (worldOf (inr [dbA; dbB]) listedOrder 1000) coldStart)) 1 "db" =
               Some (newVal hasPrometheus dbA)) by (vm_compute; reflexivity).
  assert (H2 : lookupDS (chk_state (check "grafana"
                 (worldOf (inr [dbA; dbB]) reversedOrder 1001)
                 (chk_state (check "grafana"
                    (worldOf (inr [dbA; dbB]) listedOrder 1000) coldStart)))) 1 "db" =
               Some (newVal hasPrometheus dbB)) by (vm_compute; reflexivity).
  split; [exact H1 | ]. split; [exact H2 | ].
  intros Heq. unfold lookupDS in H1, H2. rewrite Heq in H2.
  rewrite H1 in H2. discriminate H2.
Qed.

(** ** Further properties of the snapshot *)

Section Lookups.

Variable DatasourceUID : string.

Implicit Types (w : World) (c : dsCache) (result : list DataSource)
  (r : DataSource) (orgID : Z) (uid k : string) (m P : gmap string dsVal)
  (visit : list dsVal) (defaultDS : gmap Z dsVal).

(** After the first loop, the entry of an organisation under a uid is the
    last catalog record with that organisation and uid. *)
Lemma primaryPass_lookup (plugin : string → bool) result orgID uid :
  (primaryPass plugin result).1 !! orgID ≫= (λ P, P !! uid) =
  newVal plugin <$> lastRecord orgID uid result.
Proof.
  unfold lastRecord.
  induction result as [ | r result IH] using rev_ind.
  - unfold primaryPass. simpl. by rewrite lookup_empty.
  - rewrite primaryPass_snoc. unfold filePrimary. simpl. rewrite filter_app.
    destruct (decide (ds_OrgId r = orgID)) as [<- | Horg].
    + rewrite lookup_insert_eq. simpl.
      destruct (decide (ds_Uid r = uid)) as [<- | Huid].
      * rewrite lookup_insert_eq. rewrite filter_cons_True by done.
        rewrite filter_nil. by rewrite last_snoc.
      * rewrite lookup_insert_ne by done.
        rewrite filter_cons_False by (intros [? ?]; done).
        rewrite filter_nil, app_nil_r. rewrite <- IH.
        by destruct ((primaryPass plugin result).1 !! ds_OrgId r).
    + rewrite lookup_insert_ne by done.
      rewrite filter_cons_False by (intros [? ?]; done).
      rewrite filter_nil, app_nil_r. exact IH.
Qed.

Lemma last_filter_elem_of {A} (Q : A → Prop) `{!∀ x, Decision (Q x)}
    (l : list A) (x : A) :
  last (filter Q l) = Some x → x ∈ l ∧ Q x.
Proof.
  intros Hlast. apply last_Some in Hlast as [l' Hl'].
  assert (Hin : x ∈ filter Q l).
  { rewrite Hl'. apply elem_of_app. right. by apply list_elem_of_singleton. }
  by apply list_elem_of_filter in Hin as [? ?].
Qed.

(** A key of a finished index holds the built-in descriptor, the default
    descriptor, or what the secondary pass left there. *)
Lemma indexOrg_inv defaultDS visit orgID P k (v : dsVal) :
  indexOrg DatasourceUID defaultDS visit orgID P !! k = Some v →
  v = gds DatasourceUID ∨
  v = default (gds DatasourceUID) (defaultDS !! orgID) ∨
  foldl fileSecondary P visit !! k = Some v.
Proof.
  unfold indexOrg. cbv zeta. simpl.
  match goal with |- context [match ?x with _ => _ end !! _] => destruct x end;
    intros Hv.
  - destruct (decide (k = "")) as [-> | Hk1].
    { rewrite lookup_insert_eq in Hv. right. left. congruence. }
    rewrite lookup_insert_ne in Hv by done.
    destruct (decide (k = DatasourceUID)) as [-> | Hk2].
    { rewrite lookup_insert_eq in Hv. left. congruence. }
    rewrite lookup_insert_ne in Hv by done. by right; right.
  - destruct (decide (k = "default")) as [-> | Hk0].
    { rewrite lookup_insert_eq in Hv. right. left. congruence. }
    rewrite lookup_insert_ne in Hv by done.
    destruct (decide (k = "")) as [-> | Hk1].
    { rewrite lookup_insert_eq in Hv. right. left. congruence. }
    rewrite lookup_insert_ne in Hv by done.
    destruct (decide (k = DatasourceUID)) as [-> | Hk2].
    { rewrite lookup_insert_eq in Hv. left. congruence. }
    rewrite lookup_insert_ne in Hv by done. by right; right.
Qed.

(** A key other than [""] and the built-in uid that the secondary pass
    left occupied keeps its value to the end. *)
Lemma indexOrg_keeps defaultDS visit orgID P k (v : dsVal) :
  k ≠ "" → k ≠ DatasourceUID →
  foldl fileSecondary P visit !! k = Some v →
  indexOrg DatasourceUID defaultDS visit orgID P !! k = Some v.
Proof.
  intros Hk1 Hk2 Hv. unfold indexOrg. cbv zeta. simpl.
  assert (Hb : (<["":=default (gds DatasourceUID) (defaultDS !! orgID)]>
            (<[DatasourceUID:=gds DatasourceUID]> (foldl fileSecondary P visit)))
            !! k = Some v).
  { rewrite lookup_insert_ne by done. by rewrite lookup_insert_ne. }
  match goal with |- context [match ?x with _ => _ end !! _] => destruct x eqn:Hd end.
  - exact Hb.
  - rewrite lookup_insert_ne; [exact Hb | ]. intros <-. congruence.
Qed.

Lemma indexOrg_occupied defaultDS visit orgID P k :
  is_Some (foldl fileSecondary P visit !! k) →
  is_Some (indexOrg DatasourceUID defaultDS visit orgID P !! k).
Proof.
  intros [v Hv].
  destruct (decide (k = "")) as [-> | Hk1].
  { rewrite indexOrg_empty_key. done. }
  destruct (decide (k = DatasourceUID)) as [-> | Hk2].
  { rewrite indexOrg_builtin_key by done. done. }
  exists v. by apply indexOrg_keeps.
Qed.

(** X1: Every uid the catalog lists for an organisation resolves after a
    successful refresh; unless the uid is [""] or the built-in uid, the
    descriptor is the last catalog record of the organisation with that
    uid. *)
Theorem listed_uid_resolves w c result r :
  refreshesWith w c result →
  r ∈ result →
  is_Some (res_ds (getDS DatasourceUID w c (ds_OrgId r) (ds_Uid r))) ∧
  (ds_Uid r ≠ "" → ds_Uid r ≠ DatasourceUID →
   res_ds (getDS DatasourceUID w c (ds_OrgId r) (ds_Uid r)) =
   newVal (Plugin w) <$> lastRecord (ds_OrgId r) (ds_Uid r) result).
Proof.
  intros Hrefresh Hr. rewrite (getDS_refreshed _ w c result) by done. simpl.
  rewrite buildCache_lookup.
  pose proof (primaryPass_lookup (Plugin w) result (ds_OrgId r) (ds_Uid r))
    as Hlookup.
  assert (Hidx : is_Some ((primaryPass (Plugin w) result).1 !! ds_OrgId r)).
  { apply primaryPass_indexed. by exists r. }
  destruct Hidx as [P HP]. rewrite HP in Hlookup |- *. simpl in Hlookup |- *.
  assert (Hsome : is_Some (lastRecord (ds_OrgId r) (ds_Uid r) result)).
  { unfold lastRecord.
    destruct (last (filter (λ r0, ds_OrgId r0 = ds_OrgId r ∧ ds_Uid r0 = ds_Uid r)
                      result)) as [r' | ] eqn:Hlast; [done | ].
    apply last_None in Hlast.
    assert (Hin : r ∈ filter (λ r0, ds_OrgId r0 = ds_OrgId r ∧ ds_Uid r0 = ds_Uid r)
                    result) by (by apply list_elem_of_filter).
    rewrite Hlast in Hin. by apply elem_of_nil in Hin. }
  destruct Hsome as [r' Hr']. rewrite Hr' in Hlookup |- *. simpl in Hlookup |- *.
  assert (Hpass : foldl fileSecondary P (rangeOrder w (ds_OrgId r) P) !! ds_Uid r =
                  Some (newVal (Plugin w) r'))
    by (by apply secondaryPass_preserves).
  split.
  - apply indexOrg_occupied. by rewrite Hpass.
  - intros Hk1 Hk2. by apply indexOrg_keeps.
Qed.

(** X2: Organisations are isolated: a descriptor that [getDS] returns for an
    organisation after a successful refresh is the built-in descriptor or is
    built from a catalog record of that very organisation, with
    [PluginExists] as the plugin registry answered for the record's type. *)
Theorem resolved_descriptor_origin w c result orgID k (v : dsVal) :
  refreshesWith w c result →
  goRange (rangeOrder w) →
  res_ds (getDS DatasourceUID w c orgID k) = Some v →
  v = gds DatasourceUID ∨
  ∃ r, r ∈ result ∧ ds_OrgId r = orgID ∧ v = newVal (Plugin w) r ∧
       PluginExists v = Plugin w (ds_Type r).
Proof.
  intros Hrefresh Horder. rewrite (getDS_refreshed _ w c result) by done. simpl.
  rewrite buildCache_lookup.
  destruct ((primaryPass (Plugin w) result).1 !! orgID) as [P | ] eqn:HP;
    [ | done].
  simpl. intros Hv. apply indexOrg_inv in Hv as [Hv | [Hv | Hv]].
  - by left.
  - rewrite primaryPass_default in Hv.
    destruct (defaultRecord orgID result) as [r | ] eqn:Hdef; [ | by left].
    right. exists r. apply last_filter_elem_of in Hdef as (Hr & Horg & _).
    by subst v.
  - right. apply secondaryPass_inv in Hv as [Hv | (_ & Hin & _)].
    + destruct (primaryPass_entry _ _ _ _ _ _ HP Hv) as (r & Hr & Horg & _ & ->).
      by exists r.
    + apply Horder in Hin as [k' Hk'].
      destruct (primaryPass_entry _ _ _ _ _ _ HP Hk') as (r & Hr & Horg & _ & ->).
      by exists r.
Qed.

(** X3: When no identifier is shared by two records of one organisation, a
    record is found under each of its uid, its decimal internal id and its
    name, the keys [""] and the built-in uid apart. *)
Theorem record_found_by_each_identifier w c result r k :
  refreshesWith w c result →
  goRange (rangeOrder w) →
  unambiguous result →
  r ∈ result →
  k ∈ identifiers r →
  k ≠ "" → k ≠ DatasourceUID →
  res_ds (getDS DatasourceUID w c (ds_OrgId r) k) = Some (newVal (Plugin w) r).
Proof.
  intros Hrefresh Horder Hunamb Hr Hk Hk1 Hk2.
  rewrite (getDS_refreshed _ w c result) by done. simpl.
  rewrite buildCache_lookup.
  assert (Hidx : is_Some ((primaryPass (Plugin w) result).1 !! ds_OrgId r)).
  { apply primaryPass_indexed. by exists r. }
  destruct Hidx as [P HP]. rewrite HP. simpl.
  apply indexOrg_keeps; [done | done | ].
  (* the record itself sits under its uid *)
  assert (Huid : P !! ds_Uid r = Some (newVal (Plugin w) r)).
  { pose proof (primaryPass_lookup (Plugin w) result (ds_OrgId r) (ds_Uid r))
      as Hlookup.
    rewrite HP in Hlookup. simpl in Hlookup. rewrite Hlookup.
    destruct (lastRecord (ds_OrgId r) (ds_Uid r) result) as [r' | ] eqn:Hlast.
    - apply last_filter_elem_of in Hlast as (Hr' & Horg' & Huid').
      simpl. do 2 f_equal. apply (Hunamb r' r (ds_Uid r)); try done.
      + unfold identifiers. rewrite Huid'. apply elem_of_cons. by left.
      + unfold identifiers. apply elem_of_cons. by left.
    - exfalso. apply last_None in Hlast.
      assert (Hin : r ∈ filter (λ r0, ds_OrgId r0 = ds_OrgId r ∧ ds_Uid r0 = ds_Uid r)
                      result) by (by apply list_elem_of_filter).
      rewrite Hlast in Hin. by apply elem_of_nil in Hin. }
  (* whoever holds the key [k] shares it with [r] *)
  assert (Hown : ∀ v, foldl fileSecondary P (rangeOrder w (ds_OrgId r) P) !! k = Some v →
                      v = newVal (Plugin w) r).
  { intros v Hv. apply secondaryPass_inv in Hv as [Hv | (_ & Hin & Hkv)].
    - destruct (primaryPass_entry _ _ _ _ _ _ HP Hv) as (r' & Hr' & Horg' & Huid' & ->).
      f_equal. apply (Hunamb r' r k); try done.
      unfold identifiers. rewrite Huid'. apply elem_of_cons. by left.
    - apply Horder in Hin as [k' Hk'].
      destruct (primaryPass_entry _ _ _ _ _ _ HP Hk') as (r' & Hr' & Horg' & _ & ->).
      f_equal. apply (Hunamb r' r k); try done.
      unfold identifiers. rewrite !elem_of_cons. simpl in Hkv. tauto. }
  unfold identifiers in Hk. rewrite !elem_of_cons in Hk.
  destruct Hk as [-> | [Hk | [Hk | Hk]]]; [ | | | by apply elem_of_nil in Hk].
  - by apply secondaryPass_preserves.
  - destruct (secondaryPass_occupied (rangeOrder w (ds_OrgId r) P) P
                (newVal (Plugin w) r) k) as [v Hv].
    + apply Horder. by exists (ds_Uid r).
    + by left.
    + rewrite Hv. f_equal. by apply Hown.
  - destruct (secondaryPass_occupied (rangeOrder w (ds_OrgId r) P) P
                (newVal (Plugin w) r) k) as [v Hv].
    + apply Horder. by exists (ds_Uid r).
    + by right.
    + rewrite Hv. f_equal. by apply Hown.
Qed.

(** X4: No false positives: outside the keys [""], ["default"] and the built-in
    uid, a descriptor returned for an identifier is built from a catalog
    record of the organisation that has this identifier as its uid, its
    decimal internal id or its name. *)
Theorem resolved_descriptor_owns_key w c result orgID k (v : dsVal) :
  refreshesWith w c result →
  goRange (rangeOrder w) →
  k ≠ "" → k ≠ "default" → k ≠ DatasourceUID →
  res_ds (getDS DatasourceUID w c orgID k) = Some v →
  ∃ r, r ∈ result ∧ ds_OrgId r = orgID ∧ k ∈ identifiers r ∧
       v = newVal (Plugin w) r.
Proof.
  intros Hrefresh Horder Hk1 Hk0 Hk2.
  rewrite (getDS_refreshed _ w c result) by done. simpl.
  rewrite buildCache_lookup.
  destruct ((primaryPass (Plugin w) result).1 !! orgID) as [P | ] eqn:HP;
    [ | done].
  simpl. intros Hv.
  assert (Hpass : foldl fileSecondary P (rangeOrder w orgID P) !! k = Some v).
  { unfold indexOrg in Hv. cbv zeta in Hv. simpl in Hv.
    match type of Hv with context [match ?x with _ => _ end !! _] => destruct x end.
    - by rewrite !lookup_insert_ne in Hv.
    - by rewrite !lookup_insert_ne in Hv. }
  apply secondaryPass_inv in Hpass as [Hpass | (_ & Hin & Hkv)].
  - destruct (primaryPass_entry _ _ _ _ _ _ HP Hpass) as (r & Hr & Horg & Huid & ->).
    exists r. repeat split; try done.
    unfold identifiers. rewrite Huid. apply elem_of_cons. by left.
  - apply Horder in Hin as [k' Hk'].
    destruct (primaryPass_entry _ _ _ _ _ _ HP Hk') as (r & Hr & Horg & _ & ->).
    exists r. repeat split; try done.
    unfold identifiers. rewrite !elem_of_cons. simpl in Hkv. tauto.
Qed.

(** X5: The key ["default"] always resolves for a listed organisation: to the
    descriptor filed under [""], or else to a catalog record of the
    organisation whose uid or name is ["default"]. *)
Theorem default_key_always_resolves w c result orgID :
  refreshesWith w c result →
  goRange (rangeOrder w) →
  DatasourceUID ≠ "default" →
  (∃ r, r ∈ result ∧ ds_OrgId r = orgID) →
  ∃ v : dsVal,
    res_ds (getDS DatasourceUID w c orgID "default") = Some v ∧
    (res_ds (getDS DatasourceUID w c orgID "") = Some v ∨
     ∃ r, r ∈ result ∧ ds_OrgId r = orgID ∧
          (ds_Uid r = "default" ∨ ds_Name r = "default") ∧
          v = newVal (Plugin w) r).
Proof.
  intros Hrefresh Horder Hne Hrec.
  rewrite !(getDS_refreshed _ w c result) by done. simpl.
  rewrite buildCache_lookup.
  apply primaryPass_indexed with (plugin := Plugin w) in Hrec as [P HP].
  rewrite HP. simpl. rewrite indexOrg_empty_key.
  destruct (foldl fileSecondary P (rangeOrder w orgID P) !! "default")
    as [v | ] eqn:Hv.
  - exists v. split; [by apply indexOrg_keeps | ]. right.
    apply secondaryPass_inv in Hv as [Hv | (_ & Hin & Hkv)].
    + destruct (primaryPass_entry _ _ _ _ _ _ HP Hv) as (r & Hr & Horg & Huid & ->).
      exists r. auto.
    + apply Horder in Hin as [k' Hk'].
      destruct (primaryPass_entry _ _ _ _ _ _ HP Hk') as (r & Hr & Horg & _ & ->).
      exists r. repeat split; try done. right.
      destruct Hkv as [Hkv | Hkv]; [ | done].
      symmetry in Hkv. by apply Sprintf_d_not_default in Hkv.
  - eexists. split; [by apply indexOrg_default_key | by left].
Qed.

Lemma fileIfAbsent_taken k (ds : dsVal) m :
  is_Some (m !! k) → fileIfAbsent k ds m = m.
Proof. intros [v Hv]. unfold fileIfAbsent. by rewrite Hv. Qed.

Lemma fileSecondary_taken m (ds : dsVal) :
  is_Some (m !! Sprintf_d (InternalID ds)) → is_Some (m !! Name ds) →
  fileSecondary m ds = m.
Proof.
  intros Hid Hname. unfold fileSecondary. cbv zeta.
  rewrite (fileIfAbsent_taken (Sprintf_d (InternalID ds))) by done.
  by rewrite fileIfAbsent_taken.
Qed.

(** X6: Producing a value again later in the iteration changes nothing: its
    two secondary keys are occupied from its first visit on. This is why the
    entries that the loop files while [range] is running may or may not be
    produced without any effect on the index. *)
Theorem revisit_changes_nothing m (visit1 visit2 : list dsVal) (ds : dsVal) :
  ds ∈ visit1 →
  foldl fileSecondary m (visit1 ++ ds :: visit2) =
  foldl fileSecondary m (visit1 ++ visit2).
Proof.
  intros Hin. rewrite !foldl_app.
  destruct (secondaryPass_occupied visit1 m ds (Sprintf_d (InternalID ds)) Hin)
    as [v1 Hv1]; [by left | ].
  destruct (secondaryPass_occupied visit1 m ds (Name ds) Hin)
    as [v2 Hv2]; [by right | ].
  assert (Hnoop : fileSecondary (foldl fileSecondary m visit1) ds =
                  foldl fileSecondary m visit1).
  { apply fileSecondary_taken; [by rewrite Hv1 | by rewrite Hv2]. }
  change (foldl fileSecondary (foldl fileSecondary m visit1) (ds :: visit2))
    with (foldl fileSecondary (fileSecondary (foldl fileSecondary m visit1) ds) visit2).
  by rewrite Hnoop.
Qed.

End Lookups.

Section Sequences.

Variable DatasourceUID : string.

Implicit Types (w : World) (c : dsCache) (result : list DataSource)
  (orgID : Z) (uid : string).

(** X7: After a successful refresh, any [getDS] whose clock reading is at most
    one minute past the publication instant runs no [check], queries nothing,
    returns a nil error, leaves the state alone, and gives for the same
    organisation and identifier the descriptor the refreshing call gave.
    This holds for the empty catalog too: the published map is empty but not
    nil. *)
Theorem fresh_snapshot_served_without_query (w1 w2 : World) c result orgID uid
    (orgID' : Z) (uid' : string) :
  refreshesWith w1 c result →
  (nowAtResolve w2 ≤ nowAtPublish w1 + Minute)%Z →
  getDS DatasourceUID w2 (res_state (getDS DatasourceUID w1 c orgID uid)) orgID' uid' =
    {| res_state := res_state (getDS DatasourceUID w1 c orgID uid);
       res_ds := lookupDS (res_state (getDS DatasourceUID w1 c orgID uid)) orgID' uid';
       res_err := None;
       res_checks := 0;
       res_queries := 0 |} ∧
  res_ds (getDS DatasourceUID w2 (res_state (getDS DatasourceUID w1 c orgID uid))
            orgID uid) =
  res_ds (getDS DatasourceUID w1 c orgID uid).
Proof.
  intros Hrefresh Hnow.
  assert (Hfresh : stale (res_state (getDS DatasourceUID w1 c orgID uid))
                     (nowAtResolve w2) = false).
  { rewrite (getDS_refreshed _ w1 c result) by done. unfold stale. simpl.
    apply bool_decide_eq_false. lia. }
  assert (Hget : ∀ o u,
    getDS DatasourceUID w2 (res_state (getDS DatasourceUID w1 c orgID uid)) o u =
    {| res_state := res_state (getDS DatasourceUID w1 c orgID uid);
       res_ds := lookupDS (res_state (getDS DatasourceUID w1 c orgID uid)) o u;
       res_err := None;
       res_checks := 0;
       res_queries := 0 |}).
  { intros o u. unfold getDS at 1. by rewrite Hfresh. }
  split; [apply Hget | ].
  rewrite Hget. simpl. symmetry. apply getDS_serves_state.
Qed.


End Sequences.

(** ** The further properties at sample inputs *)

Lemma unambiguous_sample : unambiguous [prometheus; namedDefault].
Proof.
  intros r1 r2 k Hr1 Hr2 _ Hk1 Hk2.
  rewrite !elem_of_cons in Hr1, Hr2.
  destruct Hr1 as [-> | [-> | Hr1]]; [ | | by apply elem_of_nil in Hr1];
    destruct Hr2 as [-> | [-> | Hr2]]; try done;
    try (by apply elem_of_nil in Hr2);
    unfold identifiers in Hk1, Hk2; rewrite !elem_of_cons in Hk1, Hk2;
    destruct Hk1 as [-> | [-> | [-> | Hk1]]]; try (by apply elem_of_nil in Hk1);
    destruct Hk2 as [Hk2 | [Hk2 | [Hk2 | Hk2]]]; try (by apply elem_of_nil in Hk2);
    vm_compute in Hk2; discriminate Hk2.
Qed.

Lemma listed_uid_resolves_witness :
  res_ds (getDS "grafana" (worldOf (inr [prometheus; namedDefault]) listedOrder 1000)
            coldStart 1 "xyz") = Some (newVal hasPrometheus namedDefault).
Proof.
  assert (Hin : namedDefault ∈ [prometheus; namedDefault]).
  { apply elem_of_cons. right. by apply list_elem_of_singleton. }
  destruct (listed_uid_resolves "grafana"
              (worldOf (inr [prometheus; namedDefault]) listedOrder 1000)
              coldStart [prometheus; namedDefault] namedDefault
              (coldStart_refreshes _ _ _) Hin) as [_ Hlast].
  apply Hlast; discriminate.
Defined.

Lemma resolved_descriptor_origin_witness :
  newVal hasPrometheus prometheus = gds "grafana" ∨
  ∃ r, r ∈ [prometheus; namedDefault] ∧ ds_OrgId r = 1 ∧
       newVal hasPrometheus prometheus = newVal hasPrometheus r ∧
       PluginExists (newVal hasPrometheus prometheus) = hasPrometheus (ds_Type r).
Proof.
  apply (resolved_descriptor_origin "grafana"
           (worldOf (inr [prometheus; namedDefault]) listedOrder 1000)
           coldStart [prometheus; namedDefault] 1 "7").
  - apply coldStart_refreshes.
  - apply goRange_listedOrder.
  - vm_compute. reflexivity.
Defined.

Lemma record_found_by_each_identifier_witness :
  res_ds (getDS "grafana" (worldOf (inr [prometheus; namedDefault]) reversedOrder 1000)
            coldStart 1 "Prometheus") = Some (newVal hasPrometheus prometheus).
Proof.
  apply (record_found_by_each_identifier "grafana"
           (worldOf (inr [prometheus; namedDefault]) reversedOrder 1000)
           coldStart [prometheus; namedDefault] prometheus "Prometheus").
  - apply coldStart_refreshes.
  - apply goRange_reversedOrder.
  - apply unambiguous_sample.
  - apply elem_of_cons. by left.
  - unfold identifiers. rewrite !elem_of_cons. right. right. by left.
  - discriminate.
  - discriminate.
Defined.

Lemma resolved_descriptor_owns_key_witness :
  ∃ r, r ∈ [dbA; dbB] ∧ ds_OrgId r = 1 ∧ "db" ∈ identifiers r ∧
       newVal hasPrometheus dbB = newVal hasPrometheus r.
Proof.
  apply (resolved_descriptor_owns_key "grafana"
           (worldOf (inr [dbA; dbB]) reversedOrder 1000) coldStart [dbA; dbB] 1 "db").
  - apply coldStart_refreshes.
  - apply goRange_reversedOrder.
  - discriminate.
  - discriminate.
  - discriminate.
  - vm_compute. reflexivity.
Defined.

Lemma default_key_always_resolves_witness :
  ∃ v : dsVal,
    res_ds (getDS "grafana" (worldOf (inr [prometheus; namedDefault]) listedOrder 1000)
              coldStart 1 "default") = Some v ∧
    (res_ds (getDS "grafana" (worldOf (inr [prometheus; namedDefault]) listedOrder 1000)
               coldStart 1 "") = Some v ∨
     ∃ r, r ∈ [prometheus; namedDefault] ∧ ds_OrgId r = 1 ∧
          (ds_Uid r = "default" ∨ ds_Name r = "default") ∧
          v = newVal hasPrometheus r).
Proof.
  apply (default_key_always_resolves "grafana"
           (worldOf (inr [prometheus; namedDefault]) listedOrder 1000)
           coldStart [prometheus; namedDefault] 1).
  - apply coldStart_refreshes.
  - apply goRange_listedOrder.
  - discriminate.
  - exists prometheus. split; [apply elem_of_cons; by left | reflexivity].
Defined.

Lemma revisit_changes_nothing_witness :
  foldl fileSecondary ∅
    ([newVal hasPrometheus dbA; newVal hasPrometheus dbB] ++
     newVal hasPrometheus dbA :: [newVal hasPrometheus prometheus]) =
  foldl fileSecondary ∅
    ([newVal hasPrometheus dbA; newVal hasPrometheus dbB] ++
     [newVal hasPrometheus prometheus]).
Proof.
  apply (revisit_changes_nothing ∅
           [newVal hasPrometheus dbA; newVal hasPrometheus dbB]
           [newVal hasPrometheus prometheus] (newVal hasPrometheus dbA)).
  apply elem_of_cons. by left.
Defined.

Lemma fresh_snapshot_served_without_query_witness :
  res_queries (getDS "grafana" (worldOf (inl "catalog unavailable") listedOrder 60000001000)
                 (res_state (getDS "grafana" (worldOf (inr []) listedOrder 1000)
                               coldStart 1 "abc")) 2 "xyz") = 0%nat ∧
  res_err (getDS "grafana" (worldOf (inl "catalog unavailable") listedOrder 60000001000)
             (res_state (getDS "grafana" (worldOf (inr []) listedOrder 1000)
                           coldStart 1 "abc")) 2 "xyz") = None.
Proof.
  destruct (fresh_snapshot_served_without_query "grafana"
              (worldOf (inr []) listedOrder 1000)
              (worldOf (inl "catalog unavailable") listedOrder 60000001000)
              coldStart [] 1 "abc" 2 "xyz" (coldStart_refreshes _ _ _))
    as [Hget _].
  - vm_compute. discriminate.
  - rewrite Hget. split; reflexivity.
Defined.


(** ** The filter of the leaked token check *)

Section Filter.

Import leakcheck.

Implicit Types (now : nat → Z) (n i : nat) (tokens : list APIKey)
  (token t : APIKey) (acc : list string * gmap string APIKey) (k : string).

Lemma filterFrom_hashes now n tokens acc k :
  k ∈ (filterFrom now n tokens acc).1 ↔
  k ∈ acc.1 ∨
  ∃ i t, tokens !! i = Some t ∧ Key t = k ∧
         hasExpired (now (n + i)%nat) (Expires t) = false ∧ isRevoked t = false.
Proof.
  revert n acc. induction tokens as [ | token rest IH]; intros n acc; simpl.
  - split; [by left | ]. intros [H | (i & t & H & _)]; [done | ].
    by rewrite lookup_nil in H.
  - destruct (hasExpired (now n) (Expires token) || isRevoked token) eqn:Hskip.
    + rewrite IH. split.
      * intros [H | (i & t & Hi & Hrest)]; [by left | right].
        exists (S i), t. split; [done | ].
        by replace (n + S i)%nat with (S n + i)%nat by lia.
      * intros [H | (i & t & Hi & Hk & Hexp & Hrev)]; [by left | right].
        destruct i as [ | i]; simpl in Hi.
        -- injection Hi as <-. rewrite Nat.add_0_r in Hexp.
           rewrite Hexp, Hrev in Hskip. done.
        -- exists i, t.
           replace (n + S i)%nat with (S n + i)%nat in Hexp by lia.
           by repeat split.
    + apply orb_false_iff in Hskip as [Hexp Hrev].
      rewrite IH. simpl. rewrite elem_of_app, list_elem_of_singleton. split.
      * intros [[H | ->] | (i & t & Hi & Hrest)].
        -- by left.
        -- right. exists 0%nat, token. rewrite Nat.add_0_r. by repeat split.
        -- right. exists (S i), t. split; [done | ].
           by replace (n + S i)%nat with (S n + i)%nat by lia.
      * intros [H | (i & t & Hi & Hk & Hexp' & Hrev')]; [left; by left | ].
        destruct i as [ | i]; simpl in Hi.
        -- injection Hi as <-. left. by right.
        -- right. exists i, t.
           replace (n + S i)%nat with (S n + i)%nat in Hexp' by lia.
           by repeat split.
Qed.

Lemma filterFrom_hashMap now n tokens acc k t :
  (filterFrom now n tokens acc).2 !! k = Some t →
  acc.2 !! k = Some t ∨
  ∃ i, tokens !! i = Some t ∧ Key t = k ∧
       hasExpired (now (n + i)%nat) (Expires t) = false ∧ isRevoked t = false.
Proof.
  revert n acc. induction tokens as [ | token rest IH]; intros n acc; simpl.
  - by left.
  - destruct (hasExpired (now n) (Expires token) || isRevoked token) eqn:Hskip.
    + intros H. apply IH in H as [H | (i & Hi & Hrest)]; [by left | right].
      exists (S i). split; [done | ].
      by replace (n + S i)%nat with (S n + i)%nat by lia.
    + apply orb_false_iff in Hskip as [Hexp Hrev].
      intros H. apply IH in H as [H | (i & Hi & Hrest)].
      * simpl in H. destruct (decide (Key token = k)) as [<- | Hne].
        -- rewrite lookup_insert_eq in H. injection H as <-. right.
           exists 0%nat. rewrite Nat.add_0_r. by repeat split.
        -- rewrite lookup_insert_ne in H by done. by left.
      * right. exists (S i). split; [done | ].
        by replace (n + S i)%nat with (S n + i)%nat by lia.
Qed.

Lemma filterFrom_agree now n tokens acc :
  (∀ k, k ∈ acc.1 ↔ is_Some (acc.2 !! k)) →
  ∀ k, k ∈ (filterFrom now n tokens acc).1 ↔
       is_Some ((filterFrom now n tokens acc).2 !! k).
Proof.
  revert n acc. induction tokens as [ | token rest IH]; intros n acc Hacc;
    simpl; [done | ].
  destruct (hasExpired (now n) (Expires token) || isRevoked token).
  - by apply IH.
  - apply IH. simpl. intros k.
    rewrite elem_of_app, list_elem_of_singleton, Hacc.
    destruct (decide (Key token = k)) as [<- | Hne].
    + rewrite lookup_insert_eq. split; [done | by right].
    + rewrite lookup_insert_ne by done. split; [ | by left].
      intros [H | H]; [done | congruence].
Qed.

Lemma filter_agree now tokens k :
  k ∈ (filterCheckableTokens now tokens).1 ↔
  is_Some ((filterCheckableTokens now tokens).2 !! k).
Proof.
  apply filterFrom_agree. simpl. intros k'. rewrite lookup_empty. split.
  - intros H. by apply elem_of_nil in H.
  - by intros [? ?].
Qed.

Lemma filter_hashes_iff now tokens k :
  k ∈ (filterCheckableTokens now tokens).1 ↔
  ∃ i t, tokens !! i = Some t ∧ Key t = k ∧
         hasExpired (now i) (Expires t) = false ∧ isRevoked t = false.
Proof.
  unfold filterCheckableTokens. rewrite filterFrom_hashes. simpl.
  split; [ | by right]. intros [H | H]; [by apply elem_of_nil in H | done].
Qed.

Lemma filter_hashMap_sound now tokens k t :
  (filterCheckableTokens now tokens).2 !! k = Some t →
  Key t = k ∧
  ∃ i, tokens !! i = Some t ∧
       hasExpired (now i) (Expires t) = false ∧ isRevoked t = false.
Proof.
  intros H. apply filterFrom_hashMap in H as [H | (i & Hi & Hk & Hrest)].
  - simpl in H. by rewrite lookup_empty in H.
  - split; [done | by exists i].
Qed.

(** X9: The two results of [filterCheckableTokens] agree: a hash is in the list
    [hashes] exactly when it is a key of [hashMap], and the token stored
    under a key has that key. *)
Theorem filter_hashes_are_hashMap_keys now tokens :
  (∀ k, k ∈ (filterCheckableTokens now tokens).1 ↔
        is_Some ((filterCheckableTokens now tokens).2 !! k)) ∧
  (∀ k t, (filterCheckableTokens now tokens).2 !! k = Some t → Key t = k).
Proof.
  split.
  - apply filter_agree.
  - intros k t H. by apply filter_hashMap_sound in H as [? _].
Qed.

Lemma isRevoked_false t :
  isRevoked t = false ↔ IsRevoked t = None ∨ IsRevoked t = Some false.
Proof.
  unfold isRevoked. destruct (IsRevoked t) as [[ | ] | ]; split; try done.
  - intros [H | H]; discriminate H.
  - by right.
  - by left.
Qed.

(** Expiry in numbers: with the clock after 1970 and an [int64] expiry
    second [e], the token has not expired exactly when [e + unixToInternal]
    does not overflow and the second [e] is not before the clock. *)
Lemma hasExpired_false (instant e : Z) :
  (0 ≤ instant)%Z →
  (-9223372036854775808 ≤ e ≤ 9223372036854775807)%Z →
  hasExpired instant (Some e) = false ↔
  (e ≤ 9223371974719179007 ∧ instant ≤ e * 1000000000)%Z.
Proof.
  intros Hnow He.
  unfold hasExpired, Before, Unix, timeAt, wrap64, unixToInternal.
  rewrite bool_decide_eq_false. simpl. split.
  - intros H. Z.div_mod_to_equations. lia.
  - intros H1 H2. Z.div_mod_to_equations. lia.
Qed.

Lemma passes_both_tests_iff_live (instant : Z) t :
  (0 ≤ instant)%Z →
  (∀ e, Expires t = Some e →
        (-9223372036854775808 ≤ e ≤ 9223372036854775807)%Z) →
  hasExpired instant (Expires t) = false ∧ isRevoked t = false ↔
  liveAt instant t.
Proof.
  intros Hnow Hrange. unfold liveAt. rewrite isRevoked_false.
  destruct (Expires t) as [e | ] eqn:He.
  - rewrite hasExpired_false by (done || by apply Hrange). tauto.
  - simpl. tauto.
Qed.

(** X10: with clock readings after 1970 and expiry seconds that are
    [int64] values, [filterCheckableTokens] keeps exactly the keys of the
    listed tokens that are not revoked and that have no expiry date or an
    expiry second [e ≤ 9223371974719179007] with [e] seconds not before the
    clock reading made for the token; every token of [hashMap] is such a
    listed token. A token with nil [Expires] and nil [IsRevoked] is always
    kept. An expiry second above 9223371974719179007 overflows in
    [time.Unix] and counts as expired: a key that only such tokens have is
    dropped. *)
Theorem filter_keeps_live_tokens now tokens :
  (∀ i, (0 ≤ now i)%Z) →
  (∀ t e, t ∈ tokens → Expires t = Some e →
          (-9223372036854775808 ≤ e ≤ 9223372036854775807)%Z) →
  (∀ k, k ∈ (filterCheckableTokens now tokens).1 ↔
        ∃ i t, tokens !! i = Some t ∧ Key t = k ∧ liveAt (now i) t) ∧
  (∀ k t, (filterCheckableTokens now tokens).2 !! k = Some t →
          ∃ i, tokens !! i = Some t ∧ liveAt (now i) t) ∧
  (∀ t, t ∈ tokens → Expires t = None → IsRevoked t = None →
        Key t ∈ (filterCheckableTokens now tokens).1) ∧
  (∀ k, (∀ i t, tokens !! i = Some t → Key t = k →
                ∃ e, Expires t = Some e ∧ (9223371974719179008 ≤ e)%Z) →
        k ∉ (filterCheckableTokens now tokens).1).
Proof.
  intros Hclock Hrange.
  assert (Hlive : ∀ i t, tokens !! i = Some t →
            (hasExpired (now i) (Expires t) = false ∧ isRevoked t = false ↔
             liveAt (now i) t)).
  { intros i t Hi. apply passes_both_tests_iff_live; [done | ].
    intros e He. apply (Hrange t e); [ | done].
    apply list_elem_of_lookup. by exists i. }
  assert (Hhashes : ∀ k, k ∈ (filterCheckableTokens now tokens).1 ↔
            ∃ i t, tokens !! i = Some t ∧ Key t = k ∧ liveAt (now i) t).
  { intros k. rewrite filter_hashes_iff. split.
    - intros (i & t & Hi & Hk & Hexp & Hrev). exists i, t.
      split; [done | ]. split; [done | ]. by apply Hlive.
    - intros (i & t & Hi & Hk & Ht). exists i, t.
      apply Hlive in Ht as [Hexp Hrev]; done. }
  split; [exact Hhashes | ]. split; [ | split].
  - intros k t H. apply filter_hashMap_sound in H as (_ & i & Hi & Hexp & Hrev).
    exists i. split; [done | ]. by apply Hlive.
  - intros t Hin Hexp Hrev. apply filter_hashes_iff.
    apply list_elem_of_lookup in Hin as [i Hi]. exists i, t.
    unfold hasExpired, isRevoked. by rewrite Hexp, Hrev.
  - intros k Hfar Hin. apply Hhashes in Hin as (i & t & Hi & Hk & _ & Ht).
    destruct (Hfar i t Hi Hk) as (e & He & Hbig). rewrite He in Ht. lia.
Qed.

End Filter.

(** ** The run of [CheckTokens] *)

Section CheckTokens.

Import leakcheck.

Implicit Types (s : Service) (w : World) (hashMap : gmap string APIKey)
  (n : nat) (leaked : list Token) (tk : Token) (tokens : list APIKey)
  (t : APIKey) (e : error).

(** The calls made for one leaked token whose service account is known. *)
Lemma handleLeaked_known s w hashMap n tk (sa : Z) :
  ServiceAccountId (default zeroAPIKey (hashMap !! Hash tk)) = Some sa →
  handleLeaked s w hashMap n tk =
  ((if revoke s then
      CallRevoke (OrgId (default zeroAPIKey (hashMap !! Hash tk))) sa
        (Id (default zeroAPIKey (hashMap !! Hash tk))) ::
      match RevokeServiceAccountToken w n
              (OrgId (default zeroAPIKey (hashMap !! Hash tk))) sa
              (Id (default zeroAPIKey (hashMap !! Hash tk))) with
      | Some _ => [CallLog "error" "failed to delete leaked token. Revoke manually."]
      | None => []
      end
    else []) ++
   (if webHookNotify s then
      CallNotify tk (Name (default zeroAPIKey (hashMap !! Hash tk))) (revoke s) ::
      match Notify w n tk (Name (default zeroAPIKey (hashMap !! Hash tk))) (revoke s) with
      | Some _ => [CallLog "warn" "failed to call token leak webhook"]
      | None => []
      end
    else []) ++
   [CallLog "warn" "found leaked token"],
   Some tt)%list.
Proof.
  intros Hsa. unfold handleLeaked. cbv zeta. rewrite Hsa.
  destruct (revoke s), (webHookNotify s); simpl;
    repeat match goal with
           | |- context [match ?x with Some _ => _ | None => _ end] =>
               destruct x; simpl
           end; reflexivity.
Qed.

(** For a leaked token without service account the run panics, and before
    it does the store is not called. *)
Lemma handleLeaked_unknown s w hashMap n tk :
  ServiceAccountId (default zeroAPIKey (hashMap !! Hash tk)) = None →
  (handleLeaked s w hashMap n tk).2 = None ∧
  filter isRevokeCall (handleLeaked s w hashMap n tk).1 = [].
Proof.
  intros Hsa. unfold handleLeaked. cbv zeta. rewrite Hsa.
  destruct (revoke s), (webHookNotify s); simpl;
    repeat match goal with
           | |- context [match ?x with Some _ => _ | None => _ end] =>
               destruct x; simpl
           end; split; reflexivity.
Qed.

Lemma Run_bind_trace {A B : Type} (x : Run A) (f : A → Run B) (a : A) :
  x.2 = Some a → x ≫= f = ((x.1 ++ (f a).1)%list, (f a).2).
Proof. intros Hx. unfold mbind, Run_bind. by rewrite Hx. Qed.

Lemma Run_bind_panic {A B : Type} (x : Run A) (f : A → Run B) :
  x.2 = None → x ≫= f = (x.1, None).
Proof. intros Hx. unfold mbind, Run_bind. by rewrite Hx. Qed.

Lemma handleAll_cons s w hashMap n tk leaked :
  handleAll s w hashMap n (tk :: leaked) =
  handleLeaked s w hashMap n tk ≫= λ _, handleAll s w hashMap (S n) leaked.
Proof. reflexivity. Qed.

(** When every reported hash has a token with a service account, the loop
    ends normally after one store call per leaked token (if revoking) and
    one webhook call per leaked token (if notifying), in the order
    reported. *)
Lemma handleAll_known s w hashMap n leaked :
  (∀ tk, tk ∈ leaked →
         ∃ t sa, hashMap !! Hash tk = Some t ∧ ServiceAccountId t = Some sa) →
  (handleAll s w hashMap n leaked).2 = Some tt ∧
  filter isRevokeCall (handleAll s w hashMap n leaked).1 =
    (if revoke s then revokeCalls hashMap leaked else []) ∧
  filter isNotifyCall (handleAll s w hashMap n leaked).1 =
    (if webHookNotify s then notifyCalls s hashMap leaked else []).
Proof.
  revert n. induction leaked as [ | tk leaked IH]; intros n Hknown.
  - simpl. by destruct (revoke s), (webHookNotify s).
  - destruct (Hknown tk) as (t & sa & Ht & Hsa); [apply elem_of_cons; by left | ].
    destruct (IH (S n)) as (IH1 & IH2 & IH3).
    { intros tk' Hin. apply Hknown. apply elem_of_cons. by right. }
    rewrite handleAll_cons.
    assert (Hsa' : ServiceAccountId (default zeroAPIKey (hashMap !! Hash tk)) = Some sa)
      by (by rewrite Ht).
    rewrite (Run_bind_trace _ _ tt)
      by (by rewrite (handleLeaked_known s w hashMap n tk sa Hsa')).
    simpl. rewrite IH1. split; [done | ].
    rewrite !filter_app, IH2, IH3.
    rewrite (handleLeaked_known s w hashMap n tk sa Hsa'). simpl.
    unfold revokeCalls, notifyCalls. simpl. rewrite Ht. simpl. rewrite Hsa.
    split.
    + destruct (revoke s), (webHookNotify s); simpl;
        repeat match goal with
               | |- context [match ?x with Some _ => _ | None => _ end] =>
                   destruct x; simpl
               end; reflexivity.
    + destruct (revoke s), (webHookNotify s); simpl;
        repeat match goal with
               | |- context [match ?x with Some _ => _ | None => _ end] =>
                   destruct x; simpl
               end; reflexivity.
Qed.

(** The loop panics exactly when some reported hash has no token with a
    service account. *)
Lemma handleAll_panics s w hashMap n leaked :
  (handleAll s w hashMap n leaked).2 = None ↔
  ∃ tk, tk ∈ leaked ∧
        ServiceAccountId (default zeroAPIKey (hashMap !! Hash tk)) = None.
Proof.
  revert n. induction leaked as [ | tk leaked IH]; intros n.
  - simpl. split; [done | ]. intros (tk & Hin & _). by apply elem_of_nil in Hin.
  - rewrite handleAll_cons.
    destruct (ServiceAccountId (default zeroAPIKey (hashMap !! Hash tk)))
      as [sa | ] eqn:Hsa.
    + rewrite (Run_bind_trace _ _ tt)
        by (by rewrite (handleLeaked_known s w hashMap n tk sa Hsa)).
      simpl. rewrite IH. split.
      * intros (tk' & Hin & Hnone). exists tk'. split; [ | done].
        apply elem_of_cons. by right.
      * intros (tk' & Hin & Hnone). apply elem_of_cons in Hin as [-> | Hin].
        -- congruence.
        -- by exists tk'.
    + destruct (handleLeaked_unknown s w hashMap n tk Hsa) as [Hpanic _].
      rewrite Run_bind_panic by done. simpl. split; [ | done].
      intros _. exists tk. split; [apply elem_of_cons; by left | done].
Qed.

(** Every store call of the loop revokes the token that [hashMap] holds for
    a reported hash, and is made only when revoking is switched on. *)
Lemma handleAll_revokes s w hashMap n leaked (orgID sa tokenID : Z) :
  CallRevoke orgID sa tokenID ∈ (handleAll s w hashMap n leaked).1 →
  revoke s = true ∧
  ∃ tk t, tk ∈ leaked ∧ hashMap !! Hash tk = Some t ∧
          OrgId t = orgID ∧ ServiceAccountId t = Some sa ∧ Id t = tokenID.
Proof.
  revert n. induction leaked as [ | tk leaked IH]; intros n.
  - simpl. intros H. by apply elem_of_nil in H.
  - rewrite handleAll_cons.
    assert (Hrest : CallRevoke orgID sa tokenID ∈ (handleAll s w hashMap (S n) leaked).1 →
                    revoke s = true ∧
                    ∃ tk0 t, tk0 ∈ tk :: leaked ∧ hashMap !! Hash tk0 = Some t ∧
                      OrgId t = orgID ∧ ServiceAccountId t = Some sa ∧ Id t = tokenID).
    { intros H. apply IH in H as (Hrev & tk' & t & Hin & Hrest).
      split; [done | ]. exists tk', t. split; [ | done].
      apply elem_of_cons. by right. }
    destruct (ServiceAccountId (default zeroAPIKey (hashMap !! Hash tk)))
      as [sa' | ] eqn:Hsa.
    + rewrite (Run_bind_trace _ _ tt)
        by (by rewrite (handleLeaked_known s w hashMap n tk sa' Hsa)).
      simpl. rewrite elem_of_app. intros [H | H]; [ | by apply Hrest].
      rewrite (handleLeaked_known s w hashMap n tk sa' Hsa) in H. simpl in H.
      destruct (hashMap !! Hash tk) as [t | ] eqn:Ht; [ | done].
      simpl in Hsa, H.
      assert (Hhere : revoke s = true ∧
                CallRevoke orgID sa tokenID = CallRevoke (OrgId t) sa' (Id t)).
      { destruct (revoke s), (webHookNotify s); simpl in H;
          repeat match type of H with
                 | context [match ?x with Some _ => _ | None => _ end] =>
                     destruct x; simpl in H
                 end;
          rewrite ?elem_of_cons in H;
          repeat match type of H with
                 | _ ∨ _ => destruct H as [H | H]
                 end;
          try discriminate H; try (by apply elem_of_nil in H); by split. }
      destruct Hhere as [Hrev [= -> -> ->]]. split; [done | ].
      exists tk, t. split; [apply elem_of_cons; by left | done].
    + destruct (handleLeaked_unknown s w hashMap n tk Hsa) as [Hpanic Hnone].
      rewrite Run_bind_panic by done. simpl. intros H.
      assert (Hin : CallRevoke orgID sa tokenID ∈
                      filter isRevokeCall (handleLeaked s w hashMap n tk).1)
        by (by apply list_elem_of_filter).
      rewrite Hnone in Hin. by apply elem_of_nil in Hin.
Qed.

(** [CheckTokens], case by case. *)
Lemma CheckTokens_cases s w :
  CheckTokens s w =
  match ListTokens w with
  | inl err =>
      ([CallListTokens],
       Some (Some (wrap "failed to retrieve tokens for checking"
                     (wrap "failed to retrieve service account tokens" err))))
  | inr tokens =>
      if bool_decide (length (leakcheck_hashes w tokens) = 0%nat) then
        ([CallListTokens; CallLog "debug" "no active tokens to check"], Some None)
      else
        match ClientCheckTokens w (leakcheck_hashes w tokens) with
        | inl err =>
            ([CallListTokens; CallCheckTokens (leakcheck_hashes w tokens)],
             Some (Some (wrap "failed to check tokens" err)))
        | inr leaked =>
            (CallListTokens :: CallCheckTokens (leakcheck_hashes w tokens) ::
               (handleAll s w (leakcheck_hashMap w tokens) 0 leaked).1,
             match (handleAll s w (leakcheck_hashMap w tokens) 0 leaked).2 with
             | Some _ => Some None
             | None => None
             end)
        end
  end.
Proof.
  unfold CheckTokens, RetrieveActiveTokens, leakcheck_hashes, leakcheck_hashMap.
  unfold mbind, Run_bind, call, mret, Run_ret.
  destruct (ListTokens w) as [err | tokens]; [reflexivity | ].
  simpl.
  destruct (filterCheckableTokens (Now w) tokens) as [hashes hashMap]. simpl.
  case_bool_decide; [reflexivity | ].
  simpl.
  destruct (ClientCheckTokens w hashes) as [err | leaked]; [reflexivity | ].
  simpl.
  destruct (handleAll s w hashMap 0 leaked) as [trace [[] | ]]; simpl;
    by rewrite ?app_nil_r.
Qed.

(** X11: [CheckTokens] returns a non-nil error in two cases only: the store
    could not list the tokens, or there were tokens to check and the leak
    check client failed. The error wraps the collaborator's error. Errors of
    the store's revoke call and of the webhook never reach the caller. *)
Theorem CheckTokens_error_sources s w e :
  (CheckTokens s w).2 = Some (Some e) ↔
  (∃ err, ListTokens w = inl err ∧
          e = wrap "failed to retrieve tokens for checking"
                (wrap "failed to retrieve service account tokens" err)) ∨
  (∃ tokens err,
     ListTokens w = inr tokens ∧
     leakcheck_hashes w tokens ≠ [] ∧
     ClientCheckTokens w (leakcheck_hashes w tokens) = inl err ∧
     e = wrap "failed to check tokens" err).
Proof.
  rewrite CheckTokens_cases. split.
  - destruct (ListTokens w) as [err | tokens] eqn:Hlist.
    + simpl. intros [= <-]. left. by exists err.
    + case_bool_decide as Hlen; [done | ].
      destruct (ClientCheckTokens w (leakcheck_hashes w tokens))
        as [err | leaked] eqn:Hclient.
      * simpl. intros [= <-]. right. exists tokens, err.
        split; [done | ]. split; [ | done].
        intros Hnil. apply Hlen. by rewrite Hnil.
      * simpl. by destruct (handleAll s w (leakcheck_hashMap w tokens) 0 leaked).2.
  - intros [(err & -> & ->) | (tokens & err & -> & Hne & Hclient & ->)]; [done | ].
    rewrite bool_decide_eq_false_2.
    + by rewrite Hclient.
    + intros Hlen. apply Hne. by apply nil_length_inv.
Qed.

(** X12: When every listed token is expired or revoked (or none is listed), the
    leak check client is not called, nothing is revoked or notified, and
    [CheckTokens] returns nil. *)
Theorem nothing_checkable_no_client_call s w tokens :
  ListTokens w = inr tokens →
  (∀ i t, tokens !! i = Some t →
          hasExpired (Now w i) (Expires t) = true ∨ isRevoked t = true) →
  CheckTokens s w =
    ([CallListTokens; CallLog "debug" "no active tokens to check"], Some None).
Proof.
  intros Hlist Hdead. rewrite CheckTokens_cases, Hlist.
  rewrite bool_decide_eq_true_2; [done | ].
  destruct (leakcheck_hashes w tokens) as [ | k hashes] eqn:Hhashes; [done | ].
  exfalso.
  assert (Hk : k ∈ leakcheck_hashes w tokens)
    by (rewrite Hhashes; apply elem_of_cons; by left).
  unfold leakcheck_hashes in Hk.
  apply filter_hashes_iff in Hk as (i & t & Hi & _ & Hexp & Hrev).
  destruct (Hdead i t Hi); congruence.
Qed.

(** X13: Only leaked live tokens are revoked: every revoke call that
    [CheckTokens] makes is made with revoking switched on, for a listed
    token that was neither expired nor revoked and whose key the leak check
    client reported. *)
Theorem only_leaked_live_tokens_revoked s w (orgID sa tokenID : Z) :
  CallRevoke orgID sa tokenID ∈ (CheckTokens s w).1 →
  revoke s = true ∧
  ∃ tokens leaked i t tk,
    ListTokens w = inr tokens ∧
    ClientCheckTokens w (leakcheck_hashes w tokens) = inr leaked ∧
    tokens !! i = Some t ∧
    hasExpired (Now w i) (Expires t) = false ∧ isRevoked t = false ∧
    tk ∈ leaked ∧ Hash tk = Key t ∧
    OrgId t = orgID ∧ ServiceAccountId t = Some sa ∧ Id t = tokenID.
Proof.
  rewrite CheckTokens_cases.
  destruct (ListTokens w) as [err | tokens] eqn:Hlist.
  { simpl. rewrite list_elem_of_singleton. done. }
  case_bool_decide as Hlen.
  { simpl. rewrite !elem_of_cons. intros [H | [H | H]]; try done.
    by apply elem_of_nil in H. }
  destruct (ClientCheckTokens w (leakcheck_hashes w tokens))
    as [err | leaked] eqn:Hclient.
  { simpl. rewrite !elem_of_cons. intros [H | [H | H]]; try done.
    by apply elem_of_nil in H. }
  simpl. rewrite !elem_of_cons. intros [H | [H | H]]; try done.
  apply handleAll_revokes in H as (Hrev & tk & t & Hin & Ht & Horg & Hsa & Hid).
  split; [done | ].
  unfold leakcheck_hashMap in Ht.
  apply filter_hashMap_sound in Ht as (Hkey & i & Hi & Hexp & Hnotrev).
  exists tokens, leaked, i, t, tk. by repeat split.
Qed.

(** X14: [CheckTokens] panics exactly when the leak check client reports a hash
    for which [hashMap] holds no token with a service account; a reported
    hash that was not among the hashes sent is such a hash. *)
Theorem unknown_hash_panics s w :
  ((CheckTokens s w).2 = None ↔
   ∃ tokens leaked tk,
     ListTokens w = inr tokens ∧
     leakcheck_hashes w tokens ≠ [] ∧
     ClientCheckTokens w (leakcheck_hashes w tokens) = inr leaked ∧
     tk ∈ leaked ∧
     ServiceAccountId
       (default zeroAPIKey (leakcheck_hashMap w tokens !! Hash tk)) = None) ∧
  (∀ tokens leaked tk,
     ListTokens w = inr tokens →
     leakcheck_hashes w tokens ≠ [] →
     ClientCheckTokens w (leakcheck_hashes w tokens) = inr leaked →
     tk ∈ leaked →
     Hash tk ∉ leakcheck_hashes w tokens →
     (CheckTokens s w).2 = None).
Proof.
  assert (Hiff : (CheckTokens s w).2 = None ↔
   ∃ tokens leaked tk,
     ListTokens w = inr tokens ∧
     leakcheck_hashes w tokens ≠ [] ∧
     ClientCheckTokens w (leakcheck_hashes w tokens) = inr leaked ∧
     tk ∈ leaked ∧
     ServiceAccountId
       (default zeroAPIKey (leakcheck_hashMap w tokens !! Hash tk)) = None).
  { rewrite CheckTokens_cases. split.
    - destruct (ListTokens w) as [err | tokens] eqn:Hlist; [done | ].
      case_bool_decide as Hlen; [done | ].
      destruct (ClientCheckTokens w (leakcheck_hashes w tokens))
        as [err | leaked] eqn:Hclient; [done | ].
      simpl.
      destruct (handleAll s w (leakcheck_hashMap w tokens) 0 leaked).2 eqn:Hrun;
        [done | ].
      intros _. apply handleAll_panics in Hrun as (tk & Hin & Hsa).
      exists tokens, leaked, tk. repeat split; try done.
      intros Hnil. apply Hlen. by rewrite Hnil.
    - intros (tokens & leaked & tk & -> & Hne & Hclient & Hin & Hsa).
      rewrite bool_decide_eq_false_2
        by (intros Hlen; apply Hne; by apply nil_length_inv).
      rewrite Hclient. simpl.
      assert (Hrun : (handleAll s w (leakcheck_hashMap w tokens) 0 leaked).2 = None)
        by (apply handleAll_panics; by exists tk).
      by rewrite Hrun. }
  split; [exact Hiff | ].
  intros tokens leaked tk Hlist Hne Hclient Hin Hunknown. apply Hiff.
  exists tokens, leaked, tk. repeat split; try done.
  destruct (leakcheck_hashMap w tokens !! Hash tk) as [t | ] eqn:Ht; [ | done].
  exfalso. apply Hunknown. unfold leakcheck_hashes.
  apply filter_agree. unfold leakcheck_hashMap in Ht.
  by rewrite Ht.
Qed.

(** X15: When every reported hash belongs to a checked token with a service
    account, [CheckTokens] returns nil whatever the store and the webhook
    answer, having made exactly one revoke call per leaked token, in the
    order reported, if revoking is switched on and none otherwise, and
    exactly one webhook call per leaked token if notifying is switched on
    and none otherwise. *)
Theorem every_leak_revoked_and_notified s w tokens leaked :
  ListTokens w = inr tokens →
  leakcheck_hashes w tokens ≠ [] →
  ClientCheckTokens w (leakcheck_hashes w tokens) = inr leaked →
  (∀ tk, tk ∈ leaked →
         ∃ t sa, leakcheck_hashMap w tokens !! Hash tk = Some t ∧
                 ServiceAccountId t = Some sa) →
  (CheckTokens s w).2 = Some None ∧
  filter isRevokeCall (CheckTokens s w).1 =
    (if revoke s then revokeCalls (leakcheck_hashMap w tokens) leaked else []) ∧
  filter isNotifyCall (CheckTokens s w).1 =
    (if webHookNotify s then notifyCalls s (leakcheck_hashMap w tokens) leaked
     else []).
Proof.
  intros Hlist Hne Hclient Hknown. rewrite CheckTokens_cases, Hlist.
  rewrite bool_decide_eq_false_2
    by (intros Hlen; apply Hne; by apply nil_length_inv).
  rewrite Hclient. simpl.
  destruct (handleAll_known s w (leakcheck_hashMap w tokens) 0 leaked Hknown)
    as (Hrun & Hrevokes & Hnotifies).
  rewrite Hrun. split; [done | ].
  rewrite !filter_cons_False by (simpl; auto).
  by rewrite Hrevokes, Hnotifies.
Qed.

End CheckTokens.

(** ** The leaked token check at sample inputs *)

Lemma nothing_checkable_no_client_call_witness :
  leakcheck.CheckTokens revoking
    (leakWorld (inr [expiredToken; revokedToken]) (inr [leakOf "h2"])) =
  ([leakcheck.CallListTokens;
    leakcheck.CallLog "debug" "no active tokens to check"], Some None).
Proof.
  apply (nothing_checkable_no_client_call revoking
           (leakWorld (inr [expiredToken; revokedToken]) (inr [leakOf "h2"]))
           [expiredToken; revokedToken]); [reflexivity | ].
  intros i t Hi. destruct i as [ | [ | i]]; simpl in Hi.
  - injection Hi as <-. left. vm_compute. reflexivity.
  - injection Hi as <-. right. reflexivity.
  - by rewrite lookup_nil in Hi.
Defined.

Lemma only_leaked_live_tokens_revoked_witness :
  leakcheck.revoke revoking = true ∧
  ∃ tokens leaked i t tk,
    leakcheck.ListTokens
      (leakWorld (inr [expiredToken; liveToken]) (inr [leakOf "h1"])) = inr tokens ∧
    leakcheck.ClientCheckTokens
      (leakWorld (inr [expiredToken; liveToken]) (inr [leakOf "h1"]))
      (leakcheck_hashes
         (leakWorld (inr [expiredToken; liveToken]) (inr [leakOf "h1"])) tokens) =
      inr leaked ∧
    tokens !! i = Some t ∧
    leakcheck.hasExpired
      (leakcheck.Now (leakWorld (inr [expiredToken; liveToken]) (inr [leakOf "h1"])) i)
      (leakcheck.Expires t) = false ∧
    leakcheck.isRevoked t = false ∧
    tk ∈ leaked ∧ leakcheck.Hash tk = leakcheck.Key t ∧
    leakcheck.OrgId t = 1 ∧ leakcheck.ServiceAccountId t = Some 10 ∧
    leakcheck.Id t = 1.
Proof.
  apply (only_leaked_live_tokens_revoked revoking
           (leakWorld (inr [expiredToken; liveToken]) (inr [leakOf "h1"])) 1 10 1).
  vm_compute. apply elem_of_cons. right. apply elem_of_cons. right.
  apply elem_of_cons. by left.
Defined.

Lemma every_leak_revoked_and_notified_witness :
  (leakcheck.CheckTokens revoking
     (leakWorld (inr [expiredToken; liveToken]) (inr [leakOf "h1"]))).2 = Some None ∧
  filter isRevokeCall
    (leakcheck.CheckTokens revoking
       (leakWorld (inr [expiredToken; liveToken]) (inr [leakOf "h1"]))).1 =
    [leakcheck.CallRevoke 1 10 1] ∧
  filter isNotifyCall
    (leakcheck.CheckTokens revoking
       (leakWorld (inr [expiredToken; liveToken]) (inr [leakOf "h1"]))).1 =
    [leakcheck.CallNotify (leakOf "h1") "ci" true].
Proof.
  apply (every_leak_revoked_and_notified revoking
           (leakWorld (inr [expiredToken; liveToken]) (inr [leakOf "h1"]))
           [expiredToken; liveToken] [leakOf "h1"]).
  - reflexivity.
  - vm_compute. discriminate.
  - reflexivity.
  - intros tk Hin. apply list_elem_of_singleton in Hin as ->.
    exists liveToken, 10. split; [vm_compute | ]; reflexivity.
Defined.

(** ** Concatenation of permission sets *)

Section Permissions.

Context {Permission : Type}.

Implicit Types (ps : list (option (list Permission))) (perms : list Permission).

Lemma foldl_append_from perms ps :
  foldl (λ acc p, acc ++ default [] p)%list perms ps =
  (perms ++ foldl (λ acc p, acc ++ default [] p) [] ps)%list.
Proof.
  revert perms. induction ps as [ | p ps IH]; intros perms; simpl.
  - by rewrite app_nil_r.
  - rewrite IH, (IH (default [] p)). by rewrite app_assoc.
Qed.

(** X16: [ConcatPermissions] returns nil only for the nil argument list.
    Otherwise the result lists the permissions of the arguments in argument
    order, nil arguments contributing nothing: the result for the arguments
    [ps1] followed by [ps2] is the result for [ps1] followed by the result
    for [ps2], the first argument's permissions come first, and a permission
    is in the result exactly when it is in one of the arguments. *)
Theorem ConcatPermissions_in_argument_order :
  accesscontrol.ConcatPermissions (Permission := Permission) None = None ∧
  (∀ ps, ∃ perms, accesscontrol.ConcatPermissions (Some ps) = Some perms) ∧
  (∀ ps1 ps2 perms1 perms2,
     accesscontrol.ConcatPermissions (Some ps1) = Some perms1 →
     accesscontrol.ConcatPermissions (Some ps2) = Some perms2 →
     accesscontrol.ConcatPermissions (Some (ps1 ++ ps2)%list) =
       Some (perms1 ++ perms2)%list) ∧
  (∀ perms ps rest,
     accesscontrol.ConcatPermissions (Some ps) = Some rest →
     accesscontrol.ConcatPermissions (Some (Some perms :: ps)) =
       Some (perms ++ rest)%list) ∧
  (∀ ps perms (x : Permission),
     accesscontrol.ConcatPermissions (Some ps) = Some perms →
     (x ∈ perms ↔ ∃ p, Some p ∈ ps ∧ x ∈ p)).
Proof.
  unfold accesscontrol.ConcatPermissions.
  split; [done | ]. split; [by eexists | ]. split; [ | split].
  - intros ps1 ps2 perms1 perms2 [= <-] [= <-]. f_equal.
    rewrite foldl_app. apply foldl_append_from.
  - intros perms ps rest [= <-]. f_equal. simpl. apply foldl_append_from.
  - intros ps perms x [= <-].
    induction ps as [ | p ps IH] using rev_ind.
    + simpl. split.
      * intros H. by apply elem_of_nil in H.
      * intros (p & H & _). by apply elem_of_nil in H.
    + rewrite foldl_app. simpl. rewrite elem_of_app, IH. split.
      * intros [(p' & Hin & Hx) | Hx].
        -- exists p'. split; [ | done]. apply elem_of_app. by left.
        -- destruct p as [p | ]; simpl in Hx; [ | by apply elem_of_nil in Hx].
           exists p. split; [ | done]. apply elem_of_app. right.
           by apply list_elem_of_singleton.
      * intros (p' & Hin & Hx). apply elem_of_app in Hin as [Hin | Hin].
        -- left. by exists p'.
        -- apply list_elem_of_singleton in Hin as <-. by right.
Qed.

End Permissions.

(** ** The overflow of a far expiry date at sample inputs *)

Lemma filter_keeps_live_tokens_witness :
  "h1" ∈ (leakcheck.filterCheckableTokens (λ _, 6000000000)
            [liveToken; farFutureToken; expiredToken]).1 ∧
  "h4" ∉ (leakcheck.filterCheckableTokens (λ _, 6000000000)
            [liveToken; farFutureToken; expiredToken]).1.
Proof.
  assert (Hclock : ∀ i : nat, (0 ≤ (λ _ : nat, 6000000000) i)%Z) by (intros i; lia).
  assert (Hrange : ∀ t e, t ∈ [liveToken; farFutureToken; expiredToken] →
            leakcheck.Expires t = Some e →
            (-9223372036854775808 ≤ e ≤ 9223372036854775807)%Z).
  { intros t e Hin He. rewrite !elem_of_cons in Hin.
    destruct Hin as [-> | [-> | [-> | Hin]]]; [ | | | by apply elem_of_nil in Hin];
      simpl in He; try discriminate He; injection He as <-; lia. }
  destruct (filter_keeps_live_tokens (λ _, 6000000000)
              [liveToken; farFutureToken; expiredToken] Hclock Hrange)
    as (Hkept & _ & _ & Hdropped).
  split.
  - apply Hkept. exists 0%nat, liveToken. repeat split. by left.
  - apply Hdropped. intros i t Hi Hk.
    destruct i as [ | [ | [ | i]]]; simpl in Hi; try injection Hi as <-;
      try discriminate Hk.
    + exists 9223372036854775807. split; [reflexivity | lia].
    + by rewrite lookup_nil in Hi.
Defined.

(** The only listed token expires at the last [int64] second: nothing is
    checkable, so the failing client is never called and nil is returned. *)
Example far_expiry_nothing_to_check :
  leakcheck.CheckTokens revoking (leakWorld (inr [farFutureToken]) (inl "timeout")) =
  ([leakcheck.CallListTokens;
    leakcheck.CallLog "debug" "no active tokens to check"], Some None).
Proof. vm_compute. reflexivity. Qed.

(** The hash of the dropped token is reported: [hashMap] has no entry for
    it and the run panics before any store call for it. *)
Example far_expiry_reported_panics :
  leakcheck.CheckTokens revoking
    (leakWorld (inr [liveToken; farFutureToken]) (inr [leakOf "h4"])) =
  ([leakcheck.CallListTokens; leakcheck.CallCheckTokens ["h1"]], None).
Proof. vm_compute. reflexivity. Qed.

(** Two listed tokens share a key and the second has the far expiry: the
    first one is revoked. *)
Example far_expiry_twin_not_revoked :
  filter isRevokeCall
    (leakcheck.CheckTokens revoking
       (leakWorld (inr [liveToken; farFutureTwin]) (inr [leakOf "h1"]))).1 =
  [leakcheck.CallRevoke 1 10 1].
Proof. vm_compute. reflexivity. Qed.
